(** * cmd2 statement parsing: a shallow embedding of [cmd2/parsing.py]

    Python [str] values are modelled by [string]; a character is an [ascii],
    so the code points covered are those below 256.  A function that can raise
    returns a [result]; the only exception the module can raise is the
    [ValueError] of the [shlex] lexer.  Loops whose Python form is a [while]
    are written with a fuel argument and come with a lemma saying that the
    fuel they are given is enough. *)

From Stdlib Require Import String Ascii List Bool Arith Lia Permutation.
Import ListNotations.
Local Open Scope list_scope.
Local Open Scope string_scope.

(** ** Python built-ins used by the module *)

Inductive result (A : Type) : Type :=
| OK (a : A)
| ValueError (msg : string).
Arguments OK {A} a.
Arguments ValueError {A} msg.

Definition DQ : ascii := "034"%char.
Definition SQ : ascii := "039"%char.
Definition BACKSLASH : ascii := "092"%char.
Definition LF : ascii := "010"%char.

(** A one-character [str]. *)
Definition str1 (c : ascii) : string := String c EmptyString.

(** Truth value of a [str]: [bool(s)]. *)
Definition truthy (s : string) : bool :=
  match s with EmptyString => false | String _ _ => true end.

(** [s[n:]] *)
Fixpoint drop (n : nat) (s : string) : string :=
  match n, s with
  | 0, _ => s
  | S _, EmptyString => EmptyString
  | S n', String _ s' => drop n' s'
  end.

(** [s.startswith(pre)] *)
Definition startswith (s pre : string) : bool := prefix pre s.

(** [s[-1:]] *)
Fixpoint last_char (s : string) : string :=
  match s with
  | EmptyString => EmptyString
  | String c EmptyString => str1 c
  | String _ s' => last_char s'
  end.

(** [x in l] for a list of [str]. *)
Definition str_in (x : string) (l : list string) : bool :=
  existsb (String.eqb x) l.

(** [sep.join(l)] *)
Definition join (sep : string) (l : list string) : string := String.concat sep l.

(** [l[a:b]] for indices that are not negative. *)
Definition slice {A : Type} (a b : nat) (l : list A) : list A :=
  firstn (b - a) (skipn a l).

(** [l.index(x)]; [None] stands for the [ValueError] that every caller
    catches. *)
Fixpoint list_index (x : string) (l : list string) : option nat :=
  match l with
  | [] => None
  | y :: l' =>
      if (y =? x)%string then Some 0
      else match list_index x l' with
           | Some i => Some (S i)
           | None => None
           end
  end.

(** [l.remove(x)]: the first occurrence goes. *)
Fixpoint list_remove (x : string) (l : list string) : list string :=
  match l with
  | [] => []
  | y :: l' => if (y =? x)%string then l' else y :: list_remove x l'
  end.

(** White space as [str.isspace], [str.rstrip()] and the [\s] of a [str]
    pattern see it, on the code points below 256. *)
Definition is_space (c : ascii) : bool :=
  let n := nat_of_ascii c in
  (((9 <=? n) && (n <=? 13)) || ((28 <=? n) && (n <=? 32))
   || (n =? 133) || (n =? 160))%nat.

(** [s.rstrip()] *)
Fixpoint rstrip (s : string) : string :=
  match s with
  | EmptyString => EmptyString
  | String c s' =>
      match rstrip s' with
      | EmptyString => if is_space c then EmptyString else str1 c
      | r => String c r
      end
  end.

(** [s.replace(old, new, 1)] *)
Fixpoint replace_first (old new s : string) : string :=
  if startswith s old then new ++ drop (String.length old) s
  else match s with
       | EmptyString => EmptyString
       | String c s' => String c (replace_first old new s')
       end.

(** [s.replace(old, new)] for a one-character [old]. *)
Fixpoint replace_char (old : ascii) (new s : string) : string :=
  match s with
  | EmptyString => EmptyString
  | String c s' =>
      if (c =? old)%char then new ++ replace_char old new s'
      else String c (replace_char old new s')
  end.

(** ** The modules [constants] and [utils] *)

Module constants.

(** Modelled from the spec: [constants.QUOTES], the two quote characters
    of the table of recognised punctuation. *)
Definition QUOTES : list string := [str1 DQ; str1 SQ].

(** Modelled from the spec: [constants.REDIRECTION_PIPE]. *)
Definition REDIRECTION_PIPE : string := "|".

(** Modelled from the spec: [constants.REDIRECTION_OUTPUT]. *)
Definition REDIRECTION_OUTPUT : string := ">".

(** Modelled from the spec: [constants.REDIRECTION_APPEND]. *)
Definition REDIRECTION_APPEND : string := ">>".

(** Modelled from the spec: [constants.REDIRECTION_CHARS], the characters
    that start a pipe or a redirection. *)
Definition REDIRECTION_CHARS : list string :=
  [REDIRECTION_PIPE; REDIRECTION_OUTPUT].

(** Modelled from the spec: [constants.LINE_FEED], the reserved value of
    the implicit terminator. *)
Definition LINE_FEED : string := str1 LF.

End constants.

Module utils.

(** Modelled from the spec: [utils.is_quoted], a string of two characters
    or more that starts and ends with the same quote character. *)
Definition is_quoted (arg : string) : bool :=
  (1 <? String.length arg)%nat
  && (str1 (match arg with String c _ => c | EmptyString => " "%char end)
      =? last_char arg)%string
  && str_in (substring 0 1 arg) constants.QUOTES.

(** Modelled from the spec: [utils.strip_quotes], which takes one pair of
    surrounding quotes off a quoted string and leaves any other string as
    it is. *)
Definition strip_quotes (arg : string) : string :=
  if is_quoted arg then substring 1 (String.length arg - 2) arg else arg.

End utils.

(** ** [shlex.quote] *)

(** The complement of the class [[^\w@%+=:,./-]] under [re.ASCII]. *)
Definition shell_safe (c : ascii) : bool :=
  let n := nat_of_ascii c in
  (((48 <=? n) && (n <=? 57)) || ((65 <=? n) && (n <=? 90))
   || ((97 <=? n) && (n <=? 122)))%nat
  || existsb (Ascii.eqb c) ["_"; "@"; "%"; "+"; "="; ":"; ","; "."; "/"; "-"]%char.

Fixpoint all_chars (f : ascii -> bool) (s : string) : bool :=
  match s with
  | EmptyString => true
  | String c s' => f c && all_chars f s'
  end.

Definition shlex_quote (s : string) : string :=
  if negb (truthy s) then str1 SQ ++ str1 SQ
  else if all_chars shell_safe s then s
  else str1 SQ
       ++ replace_char SQ (str1 SQ ++ str1 DQ ++ str1 SQ ++ str1 DQ ++ str1 SQ) s
       ++ str1 SQ.

(** ** The result of a parse *)

(** [Statement] is a subclass of [str] with ten attributes; [str_value] is
    the [str] portion of the object. *)
Record Statement : Type := mkStatement {
  str_value : string;
  args : string;
  raw : string;
  command : string;
  arg_list : list string;
  multiline_command : string;
  terminator : string;
  suffix : string;
  pipe_to : list string;
  output : string;
  output_to : string
}.

(** [Statement(args, raw=..., ...)]: [__new__] hands its first argument to
    [str.__new__], and the [__init__] written by [attrs] stores each
    argument in the attribute of its name. *)
Definition Statement_new (args0 raw0 command0 : string)
    (arg_list0 : list string) (multiline_command0 terminator0 suffix0 : string)
    (pipe_to0 : list string) (output0 output_to0 : string) : Statement :=
  {| str_value := args0;
     args := args0;
     raw := raw0;
     command := command0;
     arg_list := arg_list0;
     multiline_command := multiline_command0;
     terminator := terminator0;
     suffix := suffix0;
     pipe_to := pipe_to0;
     output := output0;
     output_to := output_to0 |}.

(** ** The parser and its configuration *)

(** The attributes [__init__] stores.  [aliases] is a [dict]; it is kept as
    the list of its items in insertion order, and [alias_keys] is
    [list(self.aliases.keys())]. *)
Record StatementParser : Type := mkParser {
  allow_redirection : bool;
  terminators : list string;
  multiline_commands : list string;
  aliases : list (string * string);
  shortcuts : list (string * string)
}.

(** [StatementParser()] with every argument left at its default. *)
Definition default_parser : StatementParser :=
  {| allow_redirection := true;
     terminators := [";"];
     multiline_commands := [];
     aliases := [];
     shortcuts := [] |}.

Definition alias_keys (p : StatementParser) : list string :=
  map fst (aliases p).

(** [self.aliases[key]]; the [KeyError] case is never reached, the keys
    looked up are taken from [alias_keys]. *)
Fixpoint dict_get (d : list (string * string)) (key : string) : string :=
  match d with
  | [] => EmptyString
  | (k, v) :: d' => if (k =? key)%string then v else dict_get d' key
  end.

(** ** The two regular expressions of [__init__]

    Each pattern is written as the function the backtracking matcher of
    [re] computes on it: alternatives are tried from left to right, a greedy
    repetition takes as much as it can and gives characters back one at a
    time, a lazy one takes as little as it can. *)

(** [.*\*/] under [re.DOTALL]: the greedy [.*] runs to the end of the text
    and backs up to the last [*/].  The result is the text matched and the
    text left. *)
Fixpoint greedy_to_close (s : string) : option (string * string) :=
  match s with
  | EmptyString => None
  | String c s' =>
      match greedy_to_close s' with
      | Some (m, r) => Some (String c m, r)
      | None => if startswith s "*/" then Some ("*/", drop 2 s) else None
      end
  end.

(** [(?:\\.|[^\\q])*q] for a quote character [q]: a backslash takes the
    character after it along, any other character but [q] stands for
    itself, and the first [q] met this way closes the string. *)
Fixpoint quoted_to_close (q : ascii) (s : string) : option (string * string) :=
  match s with
  | EmptyString => None
  | String c s' =>
      if (c =? q)%char then Some (str1 c, s')
      else if (c =? BACKSLASH)%char then
        match s' with
        | EmptyString => None
        | String d s'' =>
            match quoted_to_close q s'' with
            | Some (m, r) => Some (String c (String d m), r)
            | None => None
            end
        end
      else
        match quoted_to_close q s' with
        | Some (m, r) => Some (String c m, r)
        | None => None
        end
  end.

(** [self.comment_pattern] matched at the head of [s]: [match.group(0)] and
    the text after the match. *)
Definition comment_pattern_match (s : string) : option (string * string) :=
  match s with
  | EmptyString => None
  | String c s' =>
      if startswith s "/*" then
        match greedy_to_close (drop 2 s) with
        | Some (m, r) => Some ("/*" ++ m, r)
        | None => None
        end
      else if (c =? SQ)%char || (c =? DQ)%char then
        match quoted_to_close c s' with
        | Some (m, r) => Some (String c m, r)
        | None => None
        end
      else None
  end.

(** A match object of [self._command_pattern]: [group(1)], [group(2)] and
    [line[match.end(2):]]. *)
Record Match : Type := mkMatch {
  group1 : string;
  group2 : string;
  after_group2 : string
}.

(** The literals of the second group, in the order of the alternation. *)
Definition invalid_command_chars (p : StatementParser) : list string :=
  constants.QUOTES ++ constants.REDIRECTION_CHARS ++ terminators p.

(** The first literal of [items] that [s] starts with. *)
Fixpoint match_literal (items : list string) (s : string)
  : option (string * string) :=
  match items with
  | [] => None
  | x :: items' =>
      if startswith s x then Some (x, drop (String.length x) s)
      else match_literal items' s
  end.

(** The second group at the head of [s]: a literal, else [\s], else [\Z]. *)
Definition match_second_group (p : StatementParser) (s : string)
  : option (string * string) :=
  match match_literal (invalid_command_chars p) s with
  | Some r => Some r
  | None =>
      match s with
      | String c s' => if is_space c then Some (str1 c, s') else None
      | EmptyString => Some (EmptyString, EmptyString)
      end
  end.

(** [(\S*?)(...)]: the lazy first group grows by one character that is not
    white space each time the second group fails. *)
Fixpoint match_groups (p : StatementParser) (s : string) : option Match :=
  match match_second_group p s with
  | Some (g2, rest) =>
      Some {| group1 := EmptyString; group2 := g2; after_group2 := rest |}
  | None =>
      match s with
      | EmptyString => None
      | String c s' =>
          if is_space c then None
          else match match_groups p s' with
               | Some m =>
                   Some {| group1 := String c (group1 m);
                           group2 := group2 m;
                           after_group2 := after_group2 m |}
               | None => None
               end
      end
  end.

(** [\s*] followed by the two groups: greedy, one character given back at a
    time. *)
Fixpoint match_spaces_groups (p : StatementParser) (s : string)
  : option Match :=
  match s with
  | EmptyString => match_groups p s
  | String c s' =>
      if is_space c then
        match match_spaces_groups p s' with
        | Some m => Some m
        | None => match_groups p s
        end
      else match_groups p s
  end.

(** [self._command_pattern.search(line)]; the pattern starts with [\A], so
    the only place a match can start at is the head of the line. *)
Definition command_pattern_search (p : StatementParser) (line : string)
  : option Match :=
  match_spaces_groups p line.

(** ** [_comment_replacer] and the [re.sub] of [tokenize] *)

Definition _comment_replacer (matched_string : string) : string :=
  if startswith matched_string "/" then EmptyString else matched_string.

(** [re.sub(self.comment_pattern, self._comment_replacer, line)]: at each
    place, from the left, a match is replaced and the scan goes on after
    it, and a character no match starts at is copied. *)
Fixpoint re_sub_comments (fuel : nat) (line : string) : string :=
  match fuel with
  | 0 => line
  | S fuel' =>
      match comment_pattern_match line with
      | Some (matched, rest) =>
          _comment_replacer matched ++ re_sub_comments fuel' rest
      | None =>
          match line with
          | EmptyString => EmptyString
          | String c line' => String c (re_sub_comments fuel' line')
          end
      end
  end.

Definition strip_comments (line : string) : string :=
  re_sub_comments (String.length line) line.

(** ** [_expand] *)

(** The variables of the alias loop.  [applied] is not a variable of the
    source: it lists, oldest first, the aliases whose expansion was written
    into [line]. *)
Record expand_state : Type := mkExpand {
  tmp_aliases : list string;
  cur_line : string;
  keep_expanding : bool;
  applied : list string
}.

(** [for cur_alias in tmp_aliases: ...], run over the aliases still to be
    visited.  The list is changed only right before the [break]. *)
Fixpoint for_cur_alias (p : StatementParser) (todo : list string)
    (st : expand_state) : expand_state :=
  match todo with
  | [] => st
  | cur_alias :: todo' =>
      let st := {| tmp_aliases := tmp_aliases st;
                   cur_line := cur_line st;
                   keep_expanding := false;
                   applied := applied st |} in
      match command_pattern_search p (cur_line st) with
      | Some m =>
          if truthy (group1 m) && (group1 m =? cur_alias)%string then
            let tmp := list_remove cur_alias (tmp_aliases st) in
            {| tmp_aliases := tmp;
               cur_line := dict_get (aliases p) cur_alias
                           ++ group2 m ++ after_group2 m;
               keep_expanding := match tmp with [] => false | _ => true end;
               applied := (applied st ++ [cur_alias])%list |}
          else for_cur_alias p todo' st
      | None => for_cur_alias p todo' st
      end
  end.

(** [while keep_expanding: ...] *)
Fixpoint while_keep_expanding (fuel : nat) (p : StatementParser)
    (st : expand_state) : expand_state :=
  match fuel with
  | 0 => st
  | S fuel' =>
      if keep_expanding st
      then while_keep_expanding fuel' p (for_cur_alias p (tmp_aliases st) st)
      else st
  end.

(** The state the alias loop starts in. *)
Definition expand_init (p : StatementParser) (line : string) : expand_state :=
  {| tmp_aliases := alias_keys p;
     cur_line := line;
     keep_expanding := match alias_keys p with [] => false | _ => true end;
     applied := [] |}.

(** The alias loop of [_expand]; no more rounds than there are aliases are
    ever needed (lemma [while_keep_expanding_exits]). *)
Definition expand_aliases (p : StatementParser) (line : string)
  : expand_state :=
  while_keep_expanding (List.length (alias_keys p)) p (expand_init p line).

(** [for (shortcut, expansion) in self.shortcuts: ...] *)
Fixpoint expand_shortcuts (l : list (string * string)) (line : string)
  : string :=
  match l with
  | [] => line
  | (shortcut, expansion) :: l' =>
      if startswith line shortcut then
        let shortcut_len := String.length shortcut in
        let expansion :=
          if (String.length line =? shortcut_len)%nat
             || negb (match get shortcut_len line with
                      | Some c => (c =? " ")%char
                      | None => false
                      end)
          then expansion ++ " " else expansion in
        replace_first shortcut expansion line
      else expand_shortcuts l' line
  end.

Definition _expand (p : StatementParser) (line : string) : string :=
  expand_shortcuts (shortcuts p) (cur_line (expand_aliases p line)).

(** ** [shlex.shlex(line, posix=False)] with [whitespace_split = True] *)

(** [shlex.state]: [' '], ['a'] or the quote character that is open.  The
    state [None] of the end of input is the end of the recursion below. *)
Inductive lexer_state : Type :=
| in_whitespace
| in_word
| in_quotes (q : ascii).

Definition shlex_whitespace (c : ascii) : bool :=
  existsb (Ascii.eqb c) [" "; "009"; "013"; "010"]%char.

Definition shlex_commenters (c : ascii) : bool := (c =? "#")%char.

Definition shlex_quotes (c : ascii) : bool := (c =? SQ)%char || (c =? DQ)%char.

(** The token just read goes in front of those read after it. *)
Definition emit (token : string) (r : result (list string))
  : result (list string) :=
  match r with
  | OK l => OK (token :: l)
  | ValueError msg => ValueError msg
  end.

(** [list(lexer)]: [read_token] called until it returns the empty token of
    the end of input.  One character of [instream] is read at each step;
    [state] and [token] are the attributes of the lexer, and [in_readline]
    says that the characters read belong to the [instream.readline()] which
    a comment character started.  Without [posix], a quote inside a word is
    a character of the word, a comment inside a word leaves the word open,
    and an escape character is a character like any other. *)
Fixpoint read_tokens (state : lexer_state) (token : string)
    (in_readline : bool) (instream : string) : result (list string) :=
  match instream with
  | EmptyString =>
      match state with
      | in_whitespace => OK []
      | in_word => OK [token]
      | in_quotes _ => ValueError "No closing quotation"
      end
  | String nextchar rest =>
      if in_readline then
        read_tokens state token (negb (nextchar =? LF)%char) rest
      else
        match state with
        | in_whitespace =>
            if shlex_whitespace nextchar then
              read_tokens in_whitespace EmptyString false rest
            else if shlex_commenters nextchar then
              read_tokens in_whitespace EmptyString true rest
            else if shlex_quotes nextchar then
              read_tokens (in_quotes nextchar) (str1 nextchar) false rest
            else
              read_tokens in_word (str1 nextchar) false rest
        | in_quotes q =>
            if (nextchar =? q)%char then
              emit (token ++ str1 nextchar)
                   (read_tokens in_whitespace EmptyString false rest)
            else
              read_tokens (in_quotes q) (token ++ str1 nextchar) false rest
        | in_word =>
            if shlex_whitespace nextchar then
              emit token (read_tokens in_whitespace EmptyString false rest)
            else if shlex_commenters nextchar then
              read_tokens in_word token true rest
            else
              read_tokens in_word (token ++ str1 nextchar) false rest
        end
  end.

Definition shlex_list (line : string) : result (list string) :=
  read_tokens in_whitespace EmptyString false line.

(** ** [_split_on_punctuation] *)

Definition punctuation (p : StatementParser) : list string :=
  (terminators p
   ++ (if allow_redirection p then constants.REDIRECTION_CHARS else []))%list.

(** One of the two inner [while] loops: the characters that pass [keep] go
    to [new_token], up to the first one that does not or to the end. *)
Fixpoint take_run (keep : ascii -> bool) (s : string) : string * string :=
  match s with
  | EmptyString => (EmptyString, EmptyString)
  | String c s' =>
      if keep c then let (t, r) := take_run keep s' in (String c t, r)
      else (EmptyString, s)
  end.

(** The [while True] loop on what is left of [cur_initial_token], from
    [cur_index] on. *)
Fixpoint split_token (fuel : nat) (punct : list string) (s : string)
  : list string :=
  match fuel, s with
  | S fuel', String cur_char _ =>
      let in_punct := fun c => str_in (str1 c) punct in
      let (new_token, rest) :=
        if negb (in_punct cur_char)
        then take_run (fun c => negb (in_punct c)) s
        else take_run (fun c => (c =? cur_char)%char) s in
      new_token :: split_token fuel' punct rest
  | _, _ => []
  end.

Definition _split_on_punctuation (p : StatementParser) (tokens : list string)
  : list string :=
  flat_map
    (fun cur_initial_token =>
       if (String.length cur_initial_token <=? 1)%nat
          || str_in (substring 0 1 cur_initial_token) constants.QUOTES
       then [cur_initial_token]
       else split_token (String.length cur_initial_token) (punctuation p)
                        cur_initial_token)
    tokens.

(** ** [tokenize] *)

(** The line the lexer is given. *)
Definition lexer_input (p : StatementParser) (line : string) : string :=
  _expand p (strip_comments line).

Definition tokenize (p : StatementParser) (line : string)
  : result (list string) :=
  match shlex_list (lexer_input p line) with
  | OK tokens => OK (_split_on_punctuation p tokens)
  | ValueError msg => ValueError msg
  end.

(** ** [_command_and_args] *)

Definition _command_and_args (tokens : list string) : string * string :=
  let command := match tokens with tok :: _ => tok | [] => EmptyString end in
  let args :=
    if (1 <? List.length tokens)%nat then join " " (skipn 1 tokens)
    else EmptyString in
  (command, args).

(** ** [parse] *)

(** The inner [for] of the terminator search: the first configured
    terminator [cur_token] starts with. *)
Fixpoint test_terminators (terms : list string) (cur_token : string)
  : option string :=
  match terms with
  | [] => None
  | test_terminator :: terms' =>
      if startswith cur_token test_terminator then Some test_terminator
      else test_terminators terms' cur_token
  end.

(** The outer [for]: the first position at which the inner one breaks. *)
Fixpoint find_terminator (terms : list string) (pos : nat)
    (tokens : list string) : option (nat * string) :=
  match tokens with
  | [] => None
  | cur_token :: tokens' =>
      match test_terminators terms cur_token with
      | Some test_terminator => Some (pos, test_terminator)
      | None => find_terminator terms (S pos) tokens'
      end
  end.

(** [terminator_pos] and [terminator] when the two loops are over. *)
Definition locate_terminator (p : StatementParser) (line : string)
    (tokens : list string) : nat * string :=
  let terminator :=
    if (last_char line =? constants.LINE_FEED)%string
    then constants.LINE_FEED else EmptyString in
  match find_terminator (terminators p) 0 tokens with
  | Some found => found
  | None => (List.length tokens + 1, terminator)
  end.

(** The local variables [command], [args], [arg_list] and [tokens]. *)
Record parse_vars : Type := mkVars {
  v_command : string;
  v_args : string;
  v_arg_list : list string;
  v_tokens : list string
}.

(** [if terminator: ... else: ...], up to the search for a pipe. *)
Definition split_at_terminator (p : StatementParser)
    (terminator_pos : nat) (terminator : string) (tokens : list string)
  : parse_vars :=
  if truthy terminator then
    let terminator_pos :=
      if (terminator =? constants.LINE_FEED)%string
      then List.length tokens + 1 else terminator_pos in
    let (command, args) := _command_and_args (firstn terminator_pos tokens) in
    {| v_command := command;
       v_args := args;
       v_arg_list := slice 1 terminator_pos tokens;
       v_tokens := skipn (terminator_pos + 1) tokens |}
  else
    let (testcommand, testargs) := _command_and_args tokens in
    if str_in testcommand (multiline_commands p) then
      {| v_command := testcommand;
         v_args := testargs;
         v_arg_list := skipn 1 tokens;
         v_tokens := [] |}
    else
      {| v_command := EmptyString;
         v_args := EmptyString;
         v_arg_list := [];
         v_tokens := tokens |}.

Section Parse.

(** What [os.path.expanduser] returns for a path that starts with [~]:
    it depends on the environment and on the password database. *)
Variable expand_tilde : string -> string.

Definition expanduser (path : string) : string :=
  if startswith path "~" then expand_tilde path else path.

(** The first [try]: [pipe_to] and the tokens kept. *)
Definition pipe_stage (tokens : list string) : list string * list string :=
  match list_index constants.REDIRECTION_PIPE tokens with
  | Some pipe_pos =>
      (map (fun cur_token => expanduser (utils.strip_quotes cur_token))
           (skipn (pipe_pos + 1) tokens),
       firstn pipe_pos tokens)
  | None => ([], tokens)
  end.

(** One of the two [try] blocks of the redirection, for the operator
    [op]: [output], [output_to] and the tokens kept. *)
Definition redirect_stage (op : string)
    (v : string * string * list string) : string * string * list string :=
  let '(output, output_to, tokens) := v in
  match list_index op tokens with
  | Some output_pos =>
      let output_to :=
        if (output_pos + 1 <? List.length tokens)%nat
        then expanduser
               (utils.strip_quotes (nth (output_pos + 1) tokens EmptyString))
        else output_to in
      (op, output_to, firstn output_pos tokens)
  | None => v
  end.

(** Both blocks, [>] then [>>], from empty [output] and [output_to]. *)
Definition output_stage (tokens : list string)
  : string * string * list string :=
  redirect_stage constants.REDIRECTION_APPEND
    (redirect_stage constants.REDIRECTION_OUTPUT
       (EmptyString, EmptyString, tokens)).

(** From the tokens to the statement. *)
Definition assemble (p : StatementParser) (line : string)
    (tokens : list string) : Statement :=
  let (terminator_pos, terminator) := locate_terminator p line tokens in
  let v := split_at_terminator p terminator_pos terminator tokens in
  let (pipe_to, tokens) := pipe_stage (v_tokens v) in
  let '(output, output_to, tokens) := output_stage tokens in
  let '(suffix, command, args, arg_list) :=
    if truthy terminator then
      (join " " tokens, v_command v, v_args v, v_arg_list v)
    else if negb (truthy (v_command v)) then
      let (command, args) := _command_and_args tokens in
      (EmptyString, command, args, skipn 1 tokens)
    else (EmptyString, v_command v, v_args v, v_arg_list v) in
  let multiline_command :=
    if str_in command (multiline_commands p) then command
    else EmptyString in
  Statement_new args line command arg_list multiline_command terminator
                suffix pipe_to output output_to.

Definition parse (p : StatementParser) (line : string) : result Statement :=
  match tokenize p line with
  | OK tokens => OK (assemble p line tokens)
  | ValueError msg => ValueError msg
  end.

End Parse.

(** ** [parse_command_only] *)

Definition parse_command_only (p : StatementParser) (rawinput : string)
  : Statement :=
  let line := _expand p rawinput in
  let (command, args) :=
    match command_pattern_search p line with
    | Some m =>
        let command := group1 m in
        let args := rstrip (after_group2 m) in
        if negb (truthy command) || negb (truthy args)
        then (command, EmptyString) else (command, args)
    | None => (EmptyString, EmptyString)
    end in
  let multiline_command :=
    if str_in command (multiline_commands p) then command else EmptyString in
  Statement_new args rawinput command [] multiline_command EmptyString
                EmptyString [] EmptyString EmptyString.

(** ** [is_valid_command] *)

Definition is_valid_command (p : StatementParser) (word : string)
  : bool * string :=
  let errmsg :=
    "whitespace, quotes, "
    ++ join ", " (map shlex_quote
                      (constants.REDIRECTION_CHARS ++ terminators p)%list) in
  match command_pattern_search p word with
  | Some m =>
      if (word =? group1 m)%string then (true, EmptyString)
      else (false, errmsg)
  | None => (false, errmsg)
  end.

(** ** Definitions the statements below use *)

(** The tokens [parse] is left with when the terminator has been dealt
    with: those the searches for a pipe and for a redirection look at. *)
Definition remaining_tokens (p : StatementParser) (line : string)
    (tokens : list string) : list string :=
  v_tokens (split_at_terminator p (fst (locate_terminator p line tokens))
                                (snd (locate_terminator p line tokens)) tokens).

(** The [while] loop of [_expand] as a relation: [while_exec p st st'] when
    the loop entered in [st] is left in [st']. *)
Inductive while_exec (p : StatementParser)
  : expand_state -> expand_state -> Prop :=
| while_exit st :
    keep_expanding st = false -> while_exec p st st
| while_round st st' :
    keep_expanding st = true ->
    while_exec p (for_cur_alias p (tmp_aliases st) st) st' ->
    while_exec p st st'.

(** The wording of the specification, for the lexer: a quote character is
    opened where it starts a token (outside a word and outside a [#]
    comment) and closed by the next occurrence of the same character.
    [opened] is the quote that is open, [word] says that a word is being
    read and [comment] that a comment runs to the end of the line. *)
Fixpoint quote_left_open (opened : option ascii) (word comment : bool)
    (s : string) : bool :=
  match s with
  | EmptyString => match opened with Some _ => true | None => false end
  | String c s' =>
      match opened with
      | Some q =>
          if (c =? q)%char then quote_left_open None false false s'
          else quote_left_open (Some q) false false s'
      | None =>
          if comment then quote_left_open None word (negb (c =? LF)%char) s'
          else if shlex_whitespace c then quote_left_open None false false s'
          else if (c =? "#")%char then quote_left_open None word true s'
          else if negb word && ((c =? SQ)%char || (c =? DQ)%char)
               then quote_left_open (Some c) false false s'
          else quote_left_open None true false s'
      end
  end.

Definition unclosed_quote (s : string) : bool :=
  quote_left_open None false false s.

(** The wording of the specification, for a command name: [suf] starts
    with something a command name cannot hold, that is a quote, a
    redirection character, a configured terminator or white space. *)
Definition forbidden_at (p : StatementParser) (suf : string) : Prop :=
  (exists x, In x (constants.QUOTES ++ constants.REDIRECTION_CHARS
                   ++ terminators p)%list
             /\ startswith suf x = true)
  \/ (exists c s', suf = String c s' /\ is_space c = true).

(** A word none of whose non-empty suffixes starts with something
    forbidden. *)
Definition clean_word (p : StatementParser) (word : string) : Prop :=
  forall pre suf,
    word = pre ++ suf -> suf <> EmptyString -> ~ forbidden_at p suf.

(** Whether a result is the exception. *)
Definition is_error {A : Type} (r : result A) : bool :=
  match r with OK _ => false | ValueError _ => true end.

(** A list of tokens none of which is the empty string. *)
Definition all_nonempty (l : list string) : Prop :=
  Forall (fun tok => tok <> EmptyString) l.

(** Inputs of the examples. *)
Definition home_of_user (path : string) : string :=
  "/home/user" ++ drop 1 path.

Definition parser_semicolon_colon : StatementParser :=
  {| allow_redirection := true;
     terminators := [";"; ":"];
     multiline_commands := [];
     aliases := [];
     shortcuts := [] |}.

Definition parser_sql : StatementParser :=
  {| allow_redirection := true;
     terminators := [";"];
     multiline_commands := ["sql"];
     aliases := [];
     shortcuts := [] |}.

Definition parser_cycle : StatementParser :=
  {| allow_redirection := true;
     terminators := [";"];
     multiline_commands := [];
     aliases := [("a", "b"); ("b", "a")];
     shortcuts := [] |}.

Definition parser_self_alias : StatementParser :=
  {| allow_redirection := true;
     terminators := [";"];
     multiline_commands := [];
     aliases := [("ls", "ls -l")];
     shortcuts := [] |}.


Definition quoted_then_comment : string :=
  "say " ++ str1 DQ ++ "hi /* not a comment */" ++ str1 DQ
  ++ " /* real comment */".

Definition quote_between_comments : string :=
  "say /* one */ " ++ str1 DQ ++ "hello" ++ str1 DQ ++ " /* two */".

(** ** The accessors of [Statement] *)

(** [Statement.command_and_args] *)
Definition command_and_args (self : Statement) : string :=
  if truthy (command self) && truthy (args self)
  then command self ++ " " ++ args self
  else if truthy (command self) then command self
  else EmptyString.

(** [Statement.argv] *)
Definition argv (self : Statement) : list string :=
  if truthy (command self)
  then utils.strip_quotes (command self)
       :: map utils.strip_quotes (arg_list self)
  else [].

(** ** Further definitions the statements use *)

(** The test of the alias loop, [command and command == cur_alias], on the
    leading word of [line]. *)
Definition alias_matches (p : StatementParser) (line cur_alias : string)
  : bool :=
  match command_pattern_search p line with
  | Some m => truthy (group1 m) && (group1 m =? cur_alias)%string
  | None => false
  end.

(** [c in punctuation] for a character of a token. *)
Definition in_punctuation (p : StatementParser) (c : ascii) : bool :=
  str_in (str1 c) (punctuation p).

(** A token whose first character is a quote. *)
Definition starts_with_quote (tok : string) : bool :=
  str_in (substring 0 1 tok) constants.QUOTES.

(** A string without any of the white space characters of the lexer. *)
Definition no_whitespace (s : string) : bool :=
  all_chars (fun c => negb (shlex_whitespace c)) s.

(** A string without a quote character. *)
Definition no_quote_char (s : string) : bool :=
  all_chars (fun c => negb (shlex_quotes c)) s.

(** A token as [_split_on_punctuation] leaves it: one it did not touch,
    a run of characters that are not punctuation, or a run of one
    punctuation character. *)
Definition settled_token (p : StatementParser) (tok : string) : Prop :=
  (String.length tok <=? 1)%nat || starts_with_quote tok = true
  \/ all_chars (fun c => negb (in_punctuation p c)) tok = true
  \/ exists c, in_punctuation p c = true
               /\ all_chars (fun c' => (c' =? c)%char) tok = true.

(** More inputs of examples. *)
Definition parser_shortcuts : StatementParser :=
  {| allow_redirection := true;
     terminators := [";"];
     multiline_commands := [];
     aliases := [("ll", "ls -l")];
     shortcuts := [("?", "help"); ("!", "shell")] |}.





(** * Properties *)

(** ** The model on the inputs of the documentation *)

Example lexer_keeps_quotes :
  shlex_list ("say " ++ str1 DQ ++ "a b" ++ str1 DQ ++ " c'd # rest")
  = OK ["say"; str1 DQ ++ "a b" ++ str1 DQ; "c'd"].
Proof. reflexivity. Qed.

Example punctuation_runs :
  _split_on_punctuation default_parser ["a;;b"; "x;>y"; ">>"; "'q;r'"; ";"]
  = ["a"; ";;"; "b"; "x"; ";"; ">"; "y"; ">>"; "'q;r'"; ";"].
Proof. reflexivity. Qed.

Example punctuation_without_redirection :
  _split_on_punctuation
    {| allow_redirection := false; terminators := [";"];
       multiline_commands := []; aliases := []; shortcuts := [] |}
    ["a>b;c"]
  = ["a>b"; ";"; "c"].
Proof. reflexivity. Qed.

Example parse_plain (home : string -> string) :
  parse home default_parser "cmd arg1 arg2"
  = OK (Statement_new "arg1 arg2" "cmd arg1 arg2" "cmd" ["arg1"; "arg2"]
          EmptyString EmptyString EmptyString [] EmptyString EmptyString).
Proof. reflexivity. Qed.

Example parse_truncate (home : string -> string) :
  parse home default_parser "cmd > a.txt"
  = OK (Statement_new EmptyString "cmd > a.txt" "cmd" []
          EmptyString EmptyString EmptyString [] ">" "a.txt").
Proof. reflexivity. Qed.

Example parse_append (home : string -> string) :
  parse home default_parser "cmd >> a.txt"
  = OK (Statement_new EmptyString "cmd >> a.txt" "cmd" []
          EmptyString EmptyString EmptyString [] ">>" "a.txt").
Proof. reflexivity. Qed.

Example parse_home_expansion :
  parse home_of_user default_parser "cmd x; tail > ~/out"
  = OK (Statement_new "x" "cmd x; tail > ~/out" "cmd" ["x"]
          EmptyString ";" "tail" [] ">" "/home/user/out").
Proof. reflexivity. Qed.

Example shortcut_expansion :
  _expand {| allow_redirection := true; terminators := [";"];
             multiline_commands := []; aliases := [];
             shortcuts := [("?", "help"); ("!", "shell")] |}
          "!ls -l"
  = "shell ls -l".
Proof. reflexivity. Qed.

(** ** Strings and lists *)

Arguments startswith s pre : simpl never.

Lemma string_length_append (s t : string) :
  String.length (s ++ t) = String.length s + String.length t.
Proof. induction s as [|c s IH]; simpl; [reflexivity | now rewrite IH]. Qed.

Lemma drop_length (n : nat) (s : string) :
  String.length (drop n s) <= String.length s.
Proof.
  revert s; induction n as [|n IH]; intros [|c s]; simpl; try lia.
  specialize (IH s); lia.
Qed.

Lemma truthy_false (s : string) : truthy s = false <-> s = EmptyString.
Proof. destruct s; simpl; split; congruence. Qed.

Lemma truthy_true (s : string) : truthy s = true <-> s <> EmptyString.
Proof. destruct s; simpl; split; congruence. Qed.

Lemma list_index_app (x : string) (before after : list string) :
  ~ In x before ->
  list_index x (before ++ x :: after) = Some (List.length before).
Proof.
  induction before as [|y before IH]; simpl; intros Hn.
  - now rewrite String.eqb_refl.
  - destruct (String.eqb_spec y x) as [->|_]; [tauto|].
    rewrite IH by tauto. reflexivity.
Qed.

Lemma list_index_none (x : string) (l : list string) :
  ~ In x l -> list_index x l = None.
Proof.
  induction l as [|y l IH]; simpl; intros Hn; [reflexivity|].
  destruct (String.eqb_spec y x) as [->|_]; [tauto|].
  rewrite IH by tauto. reflexivity.
Qed.

Lemma list_index_some (x : string) (l : list string) (i : nat) :
  list_index x l = Some i -> i < List.length l.
Proof.
  revert i; induction l as [|y l IH]; simpl; intros i; [discriminate|].
  destruct (y =? x)%string.
  - intros [= <-]; lia.
  - destruct (list_index x l) as [j|]; [|discriminate].
    intros [= <-]. specialize (IH j eq_refl). lia.
Qed.

Lemma list_remove_length (x : string) (l : list string) :
  In x l -> S (List.length (list_remove x l)) = List.length l.
Proof.
  induction l as [|y l IH]; simpl; [tauto|].
  destruct (String.eqb_spec y x) as [->|Hne]; [reflexivity|].
  intros [->|Hin]; [congruence|]. simpl. now rewrite IH.
Qed.

Lemma list_remove_in (x y : string) (l : list string) :
  In y (list_remove x l) -> In y l.
Proof.
  induction l as [|z l IH]; simpl; [tauto|].
  destruct (z =? x)%string; simpl; tauto.
Qed.

Lemma list_remove_nodup (x : string) (l : list string) :
  NoDup l -> NoDup (list_remove x l) /\ ~ In x (list_remove x l).
Proof.
  induction 1 as [|y l Hy Hl [IH1 IH2]]; simpl.
  - split; [constructor | tauto].
  - destruct (String.eqb_spec y x) as [->|Hne]; [tauto|].
    split.
    + constructor; [|assumption]. intro H; apply Hy.
      now apply list_remove_in in H.
    + simpl. intros [H|H]; [congruence | tauto].
Qed.

Lemma startswith_split (pre s : string) :
  startswith s pre = true -> s = pre ++ drop (String.length pre) s.
Proof.
  unfold startswith. revert s.
  induction pre as [|a pre IH]; intros s H; simpl in *.
  - reflexivity.
  - destruct s as [|b s]; simpl in H; [discriminate|].
    destruct (ascii_dec a b) as [->|]; [|discriminate].
    simpl. f_equal. now apply IH.
Qed.

Lemma startswith_empty (s : string) : startswith s EmptyString = true.
Proof. unfold startswith. destruct s; reflexivity. Qed.

(** ** The patterns consume what they match *)

Lemma greedy_to_close_split (s m r : string) :
  greedy_to_close s = Some (m, r) -> s = m ++ r /\ m <> EmptyString.
Proof.
  revert m r. induction s as [|c s IH]; simpl; intros m r H; [discriminate|].
  destruct (greedy_to_close s) as [[m' r']|].
  - injection H as <- <-. destruct (IH _ _ eq_refl) as [-> _].
    split; [reflexivity | discriminate].
  - destruct (startswith (String c s) "*/") eqn:E; [|discriminate].
    injection H as <- <-. split; [|discriminate].
    now apply startswith_split in E.
Qed.

Lemma quoted_to_close_split (q : ascii) (s m r : string) :
  quoted_to_close q s = Some (m, r) -> s = m ++ r.
Proof.
  revert m r.
  induction s as [s IH] using (well_founded_induction
    (Wf_nat.well_founded_ltof _ String.length)).
  intros m r H. destruct s as [|c s]; simpl in H; [discriminate|].
  destruct (c =? q)%char.
  - injection H as <- <-. reflexivity.
  - destruct (c =? BACKSLASH)%char.
    + destruct s as [|d s]; [discriminate|].
      destruct (quoted_to_close q s) as [[m' r']|] eqn:E; [|discriminate].
      injection H as <- <-. simpl. do 2 f_equal.
      apply IH; [unfold Wf_nat.ltof; simpl; lia | assumption].
    + destruct (quoted_to_close q s) as [[m' r']|] eqn:E; [|discriminate].
      injection H as <- <-. simpl. f_equal.
      apply IH; [unfold Wf_nat.ltof; simpl; lia | assumption].
Qed.

Lemma comment_pattern_match_split (s m r : string) :
  comment_pattern_match s = Some (m, r) -> s = m ++ r /\ m <> EmptyString.
Proof.
  unfold comment_pattern_match. destruct s as [|c s]; [discriminate|].
  destruct (startswith (String c s) "/*") eqn:E.
  - destruct (greedy_to_close (drop 2 (String c s))) as [[m' r']|] eqn:G;
      [|discriminate].
    intros [= <- <-]. split; [|discriminate].
    apply startswith_split in E. apply greedy_to_close_split in G.
    destruct G as [G _]. simpl in E, G. rewrite E. simpl.
    destruct s as [|d s]; simpl in *; [discriminate|].
    now rewrite G.
  - destruct ((c =? SQ)%char || (c =? DQ)%char); [|discriminate].
    destruct (quoted_to_close c s) as [[m' r']|] eqn:Q; [|discriminate].
    intros [= <- <-]. split; [|discriminate].
    simpl. f_equal. now apply quoted_to_close_split in Q.
Qed.

(** The fuel [strip_comments] gives is enough: more changes nothing. *)
Lemma re_sub_comments_fuel (fuel1 fuel2 : nat) (line : string) :
  String.length line <= fuel1 -> String.length line <= fuel2 ->
  re_sub_comments fuel1 line = re_sub_comments fuel2 line.
Proof.
  revert fuel2 line.
  induction fuel1 as [|f1 IH]; intros fuel2 line H1 H2.
  - destruct line; [|simpl in H1; lia]. destruct fuel2; reflexivity.
  - destruct fuel2 as [|f2].
    + destruct line; [reflexivity | simpl in H2; lia].
    + simpl. destruct (comment_pattern_match line) as [[m r]|] eqn:E.
      * apply comment_pattern_match_split in E. destruct E as [-> Hm].
        rewrite string_length_append in H1, H2.
        destruct m; [congruence|]. simpl in H1, H2.
        f_equal. apply IH; lia.
      * destruct line as [|c line]; [reflexivity|]. simpl in H1, H2.
        f_equal. apply IH; lia.
Qed.

Lemma strip_comments_fuel (fuel : nat) (line : string) :
  String.length line <= fuel ->
  re_sub_comments fuel line = strip_comments line.
Proof. intros H. apply re_sub_comments_fuel; [assumption | lia]. Qed.

(** ** The leading-word pattern always matches *)

Lemma match_second_group_at_end (p : StatementParser) (s : string) :
  match_second_group p s = None ->
  exists c s', s = String c s' /\ is_space c = false.
Proof.
  unfold match_second_group.
  destruct (match_literal _ s); [discriminate|].
  destruct s as [|c s']; [discriminate|].
  destruct (is_space c) eqn:E; [discriminate|]. now eauto.
Qed.

Lemma match_groups_total (p : StatementParser) (s : string) :
  exists m, match_groups p s = Some m.
Proof.
  induction s as [|c s [m IH]]; simpl.
  - destruct (match_second_group p EmptyString) as [[g2 rest]|] eqn:E;
      [eauto|].
    apply match_second_group_at_end in E.
    destruct E as (c & s' & H & _); discriminate.
  - destruct (match_second_group p (String c s)) as [[g2 rest]|] eqn:E;
      [eauto|].
    apply match_second_group_at_end in E.
    destruct E as (c' & s' & [= <- <-] & ->). rewrite IH. eauto.
Qed.

Lemma command_pattern_search_total (p : StatementParser) (line : string) :
  exists m, command_pattern_search p line = Some m.
Proof.
  unfold command_pattern_search.
  induction line as [|c line [m IH]].
  - apply match_groups_total.
  - cbn [match_spaces_groups]. destruct (is_space c); [rewrite IH; eauto|].
    apply match_groups_total.
Qed.

(** ** The lexer *)

Lemma emit_ok (token : string) (r : result (list string)) (l : list string) :
  emit token r = OK l -> exists l', r = OK l' /\ l = token :: l'.
Proof. destruct r; simpl; [intros [= <-]; eauto | discriminate]. Qed.

Lemma is_error_emit (token : string) (r : result (list string)) :
  is_error (emit token r) = is_error r.
Proof. destruct r; reflexivity. Qed.

Lemma append_nonempty (s : string) (c : ascii) : s ++ str1 c <> EmptyString.
Proof. destruct s; discriminate. Qed.

(** Every token the lexer gives has a character. *)
Lemma read_tokens_nonempty (s : string) :
  forall state token in_readline l,
    state = in_whitespace \/ token <> EmptyString ->
    read_tokens state token in_readline s = OK l ->
    all_nonempty l.
Proof.
  unfold all_nonempty.
  induction s as [|c s IH]; intros state token rl l Htok H.
  - destruct state; simpl in H; try discriminate; injection H as <-.
    + constructor.
    + destruct Htok as [?|?]; [discriminate|]. now repeat constructor.
  - cbn [read_tokens] in H. destruct rl; [now apply IH in H|].
    destruct state.
    + destruct (shlex_whitespace c); [apply IH in H; auto|].
      destruct (shlex_commenters c); [apply IH in H; auto|].
      destruct (shlex_quotes c); apply IH in H; auto; right; discriminate.
    + destruct Htok as [?|Htok]; [discriminate|].
      destruct (shlex_whitespace c).
      * apply emit_ok in H. destruct H as (l' & H & ->).
        constructor; [assumption|]. apply IH in H; auto.
      * destruct (shlex_commenters c); apply IH in H; auto.
        right. apply append_nonempty.
    + destruct (c =? q)%char.
      * apply emit_ok in H. destruct H as (l' & H & ->).
        constructor; [apply append_nonempty|]. apply IH in H; auto.
      * apply IH in H; auto. right. apply append_nonempty.
Qed.

(** The lexer fails exactly on a quote that is left open. *)
Lemma read_tokens_error (s : string) :
  (forall token rl, is_error (read_tokens in_whitespace token rl s)
                    = quote_left_open None false rl s)
  /\ (forall token rl, is_error (read_tokens in_word token rl s)
                       = quote_left_open None true rl s)
  /\ (forall token q, is_error (read_tokens (in_quotes q) token false s)
                      = quote_left_open (Some q) false false s).
Proof.
  induction s as [|c s (IHw & IHa & IHq)]; [repeat split; reflexivity|].
  repeat split.
  - intros token rl. cbn [read_tokens quote_left_open].
    destruct rl; [apply IHw|].
    unfold shlex_commenters, shlex_quotes.
    destruct (shlex_whitespace c); [apply IHw|].
    destruct (c =? "#")%char; [apply IHw|].
    destruct ((c =? SQ)%char || (c =? DQ)%char); simpl; [apply IHq | apply IHa].
  - intros token rl. cbn [read_tokens quote_left_open].
    destruct rl; [apply IHa|].
    unfold shlex_commenters.
    destruct (shlex_whitespace c); [rewrite is_error_emit; apply IHw|].
    destruct (c =? "#")%char; [apply IHa|]. simpl. apply IHa.
  - intros token q. cbn [read_tokens quote_left_open].
    destruct (c =? q)%char; [rewrite is_error_emit; apply IHw | apply IHq].
Qed.

Lemma shlex_list_error (line : string) :
  is_error (shlex_list line) = unclosed_quote line.
Proof. apply (proj1 (read_tokens_error line)). Qed.

(** ** Splitting on punctuation *)

Lemma take_run_length (keep : ascii -> bool) (s : string) :
  String.length (snd (take_run keep s)) <= String.length s.
Proof.
  induction s as [|c s IH]; simpl; [lia|].
  destruct (keep c); simpl; [|lia].
  destruct (take_run keep s); simpl in *. lia.
Qed.

Lemma take_run_head (keep : ascii -> bool) (c : ascii) (s : string) :
  keep c = true ->
  exists t r, take_run keep (String c s) = (String c t, r)
              /\ String.length r <= String.length s.
Proof.
  intros H. simpl. rewrite H.
  pose proof (take_run_length keep s) as L.
  destruct (take_run keep s) as [t r]. simpl in L. eauto.
Qed.

(** What one round of the [while True] loop takes and leaves. *)
Lemma split_token_round (punct : list string) (c : ascii) (s : string) :
  exists t r,
    (if negb (str_in (str1 c) punct)
     then take_run (fun c' => negb (str_in (str1 c') punct)) (String c s)
     else take_run (fun c' => (c' =? c)%char) (String c s))
    = (String c t, r)
    /\ String.length r <= String.length s.
Proof.
  destruct (negb (str_in (str1 c) punct)) eqn:E.
  - now apply take_run_head.
  - apply take_run_head. apply Ascii.eqb_refl.
Qed.

Lemma split_token_nonempty (fuel : nat) (punct : list string) (s : string) :
  all_nonempty (split_token fuel punct s).
Proof.
  unfold all_nonempty. revert s.
  induction fuel as [|fuel IH]; intros s; [constructor|].
  destruct s as [|c s]; [constructor|]. cbn [split_token].
  destruct (split_token_round punct c s) as (t & r & -> & _).
  constructor; [discriminate | apply IH].
Qed.

(** The fuel [_split_on_punctuation] gives is enough. *)
Lemma split_token_fuel (punct : list string) (fuel1 fuel2 : nat) (s : string) :
  String.length s <= fuel1 -> String.length s <= fuel2 ->
  split_token fuel1 punct s = split_token fuel2 punct s.
Proof.
  revert fuel2 s.
  induction fuel1 as [|f1 IH]; intros fuel2 s H1 H2.
  - destruct s; [|simpl in H1; lia]. destruct fuel2; reflexivity.
  - destruct s as [|c s]; [destruct fuel2; reflexivity|].
    destruct fuel2 as [|f2]; [simpl in H2; lia|].
    cbn [split_token].
    destruct (split_token_round punct c s) as (t & r & -> & L).
    simpl in H1, H2. f_equal. apply IH; lia.
Qed.

(** The tokens a token is split into, put end to end, give the token
    back. *)
Lemma split_token_concat (punct : list string) (fuel : nat) (s : string) :
  String.length s <= fuel ->
  String.concat EmptyString (split_token fuel punct s) = s.
Proof.
  revert s. induction fuel as [|fuel IH]; intros s H.
  - destruct s; [reflexivity | simpl in H; lia].
  - destruct s as [|c s]; [reflexivity|]. cbn [split_token].
    pose proof (split_token_round punct c s) as (t & r & E & L).
    assert (Hs : String c s = String c t ++ r).
    { destruct (negb (str_in (str1 c) punct)).
      - clear - E. revert E.
        generalize (fun c' : ascii => negb (str_in (str1 c') punct)).
        intros keep. generalize (String c s) (String c t). clear.
        intros s. induction s as [|a s IHs]; intros t E; simpl in E.
        + now injection E as <- <-.
        + destruct (keep a).
          * destruct (take_run keep s) as [t' r'] eqn:E'.
            injection E as <- <-. simpl. f_equal. now apply IHs.
          * now injection E as <- <-.
      - clear - E. revert E.
        generalize (fun c' : ascii => (c' =? c)%char).
        intros keep. generalize (String c s) (String c t). clear.
        intros s. induction s as [|a s IHs]; intros t E; simpl in E.
        + now injection E as <- <-.
        + destruct (keep a).
          * destruct (take_run keep s) as [t' r'] eqn:E'.
            injection E as <- <-. simpl. f_equal. now apply IHs.
          * now injection E as <- <-. }
    rewrite E. simpl in H.
    specialize (IH r ltac:(lia)).
    cbn [String.concat].
    destruct (split_token fuel punct r) as [|x l] eqn:El.
    + simpl in IH. subst r. rewrite Hs. simpl. f_equal.
      clear. induction t; simpl; [reflexivity | now f_equal].
    + rewrite IH. cbn [append]. now rewrite Hs.
Qed.

Lemma split_on_punctuation_nonempty (p : StatementParser) (tokens : list string) :
  all_nonempty tokens -> all_nonempty (_split_on_punctuation p tokens).
Proof.
  unfold all_nonempty, _split_on_punctuation.
  induction 1 as [|tok tokens Htok _ IH]; simpl; [constructor|].
  apply Forall_app. split; [|assumption].
  destruct (_ || _); [now repeat constructor | apply split_token_nonempty].
Qed.

(** ** [tokenize] *)

Lemma tokenize_nonempty (p : StatementParser) (line : string)
    (tokens : list string) :
  tokenize p line = OK tokens -> all_nonempty tokens.
Proof.
  unfold tokenize, shlex_list.
  destruct (read_tokens _ _ _ _) as [l|] eqn:E; [|discriminate].
  intros [= <-]. apply split_on_punctuation_nonempty.
  eapply read_tokens_nonempty; [|exact E]. now left.
Qed.

Lemma tokenize_error (p : StatementParser) (line : string) :
  is_error (tokenize p line) = unclosed_quote (lexer_input p line).
Proof.
  unfold tokenize. rewrite <- shlex_list_error.
  now destruct (shlex_list (lexer_input p line)).
Qed.

(** ** The search for the terminator *)

Lemma test_terminators_none (terms : list string) (tok : string) :
  (forall t, In t terms -> startswith tok t = false) ->
  test_terminators terms tok = None.
Proof.
  induction terms as [|t terms IH]; simpl; intros H; [reflexivity|].
  rewrite (H t) by now left. apply IH. intros t' Ht'. apply H. now right.
Qed.

Lemma find_terminator_none (terms : list string) (pos : nat)
    (tokens : list string) :
  (forall tok t, In tok tokens -> In t terms -> startswith tok t = false) ->
  find_terminator terms pos tokens = None.
Proof.
  revert pos. induction tokens as [|tok tokens IH]; simpl; intros pos H;
    [reflexivity|].
  rewrite test_terminators_none by (intros t Ht; apply H; [now left | exact Ht]).
  apply IH. intros tok' t Htok Ht. apply H; [now right | exact Ht].
Qed.

(** The terminator a token is tested against first wins on that token. *)
Lemma test_terminators_first (terms : list string) (tok t : string) :
  test_terminators terms tok = Some t ->
  exists terms1 terms2,
    terms = (terms1 ++ t :: terms2)%list
    /\ startswith tok t = true
    /\ forall t', In t' terms1 -> startswith tok t' = false.
Proof.
  induction terms as [|t0 terms IH]; simpl; [discriminate|].
  destruct (startswith tok t0) eqn:E.
  - intros [= <-]. exists [], terms. simpl. tauto.
  - intros H. destruct (IH H) as (l1 & l2 & -> & Ht & Hl1).
    exists (t0 :: l1), l2. simpl. repeat split; [assumption|].
    intros t' [<-|Hin]; auto.
Qed.

(** The position found is the first one at which a terminator matches. *)
Lemma find_terminator_first (terms : list string) (k : nat)
    (tokens : list string) (pos : nat) (t : string) :
  find_terminator terms k tokens = Some (pos, t) ->
  exists before tok after,
    tokens = (before ++ tok :: after)%list
    /\ pos = k + List.length before
    /\ test_terminators terms tok = Some t
    /\ forall tok' t', In tok' before -> In t' terms ->
                       startswith tok' t' = false.
Proof.
  revert k. induction tokens as [|tok0 tokens IH]; simpl; intros k;
    [discriminate|].
  destruct (test_terminators terms tok0) as [t0|] eqn:E.
  - intros [= <- <-]. exists [], tok0, tokens. simpl.
    repeat split; [lia | assumption | tauto].
  - intros H. destruct (IH _ H) as (before & tok & after & -> & -> & Ht & Hb).
    exists (tok0 :: before), tok, after. simpl.
    repeat split; [lia | assumption |].
    intros tok' t' [<-|Hin] Ht'; [|now apply Hb].
    clear - E Ht'. induction terms as [|t1 terms IH]; [destruct Ht'|].
    simpl in E. destruct (startswith tok0 t1) eqn:E1; [discriminate|].
    destruct Ht' as [<-|Ht']; auto.
Qed.

Lemma skipn_one_length (l : list string) :
  List.length (skipn 1 l) <= List.length l.
Proof. destruct l; simpl; lia. Qed.

(** ** The statement assembler *)

(** C1 (amended): when the line ends with a line feed and no token starts
    with a configured terminator, [parse] records the implicit line-feed
    terminator with its position past the last token: the command, the
    arguments and the argument list are taken from all the tokens, nothing
    is left for the suffix, and no pipe or redirection is parsed. *)
Theorem C1_line_feed_terminator (home : string -> string)
    (p : StatementParser) (line : string) (tokens : list string) :
  last_char line = constants.LINE_FEED ->
  tokenize p line = OK tokens ->
  (forall tok t, In tok tokens -> In t (terminators p) ->
                 startswith tok t = false) ->
  exists st,
    parse home p line = OK st
    /\ terminator st = constants.LINE_FEED
    /\ (command st, args st) = _command_and_args tokens
    /\ arg_list st = skipn 1 tokens
    /\ suffix st = EmptyString
    /\ pipe_to st = []
    /\ output st = EmptyString
    /\ output_to st = EmptyString.
Proof.
  intros Hlf Htok Hnone. unfold parse. rewrite Htok.
  eexists. split; [reflexivity|].
  unfold assemble, locate_terminator.
  rewrite (find_terminator_none _ _ _ Hnone), Hlf, String.eqb_refl.
  unfold split_at_terminator. cbn [truthy constants.LINE_FEED str1].
  change (String LF EmptyString) with constants.LINE_FEED.
  rewrite String.eqb_refl.
  rewrite firstn_all2 by lia.
  rewrite skipn_all2 by lia.
  unfold slice.
  rewrite firstn_all2 by (pose proof (skipn_one_length tokens); lia).
  destruct (_command_and_args tokens) as [c a]. simpl. tauto.
Qed.

(** The hypotheses of C1 hold for [cmd b] followed by a line feed. *)
Lemma C1_line_feed_terminator_witness :
  exists st,
    parse home_of_user default_parser ("cmd b" ++ str1 LF) = OK st
    /\ terminator st = constants.LINE_FEED
    /\ (command st, args st) = ("cmd", "b")
    /\ arg_list st = ["b"]
    /\ suffix st = EmptyString
    /\ pipe_to st = []
    /\ output st = EmptyString
    /\ output_to st = EmptyString.
Proof.
  apply (C1_line_feed_terminator home_of_user default_parser
           ("cmd b" ++ str1 LF) ["cmd"; "b"]).
  - reflexivity.
  - reflexivity.
  - intros tok t [<-|[<-|[]]] [<-|[]]; reflexivity.
Defined.

(** C1, as it is stated, fails on [cmd ; b] followed by a line feed: the
    configured terminator is recorded, not the line feed, and [b] goes to
    the suffix. *)
Lemma C1_counterexample :
  last_char ("cmd ; b" ++ str1 LF) = constants.LINE_FEED
  /\ exists st,
       parse home_of_user default_parser ("cmd ; b" ++ str1 LF) = OK st
       /\ terminator st = ";"
       /\ terminator st <> constants.LINE_FEED
       /\ suffix st = "b"
       /\ args st = EmptyString.
Proof.
  split; [reflexivity|]. eexists. split; [reflexivity|].
  repeat split. discriminate.
Qed.

(** C2 (amended): with the terminators [;] and [:], the line
    [cmd a : b ; c] is terminated at [:], the first token a configured
    terminator matches; the command is [cmd], the arguments are [a], and
    the suffix is [b ; c]: every token after the terminator stays in the
    suffix.  In general the terminator found is at the first position at
    which some configured terminator matches, and it is the first of the
    configured ones that matches there. *)
Theorem C2_first_terminator (home : string -> string) :
  parse home parser_semicolon_colon "cmd a : b ; c"
  = OK {| str_value := "a";
          args := "a";
          raw := "cmd a : b ; c";
          command := "cmd";
          arg_list := ["a"];
          multiline_command := EmptyString;
          terminator := ":";
          suffix := "b ; c";
          pipe_to := [];
          output := EmptyString;
          output_to := EmptyString |}
  /\ forall p line tokens pos t,
       find_terminator (terminators p) 0 tokens = Some (pos, t) ->
       locate_terminator p line tokens = (pos, t)
       /\ exists before tok after terms1 terms2,
            tokens = (before ++ tok :: after)%list
            /\ pos = List.length before
            /\ terminators p = (terms1 ++ t :: terms2)%list
            /\ startswith tok t = true
            /\ (forall t', In t' terms1 -> startswith tok t' = false)
            /\ (forall tok' t', In tok' before -> In t' (terminators p) ->
                                startswith tok' t' = false).
Proof.
  split; [reflexivity|].
  intros p line tokens pos t H. split.
  - unfold locate_terminator. now rewrite H.
  - apply find_terminator_first in H.
    destruct H as (before & tok & after & -> & -> & Ht & Hb).
    apply test_terminators_first in Ht.
    destruct Ht as (l1 & l2 & Hl & Ht & Hl1).
    exists before, tok, after, l1, l2. repeat split; auto.
Qed.

(** C2, as it is stated, fails: the suffix is not [b], the trailing
    [; c] is part of it. *)
Lemma C2_counterexample :
  exists st,
    parse home_of_user parser_semicolon_colon "cmd a : b ; c" = OK st
    /\ terminator st = ":"
    /\ suffix st = "b ; c"
    /\ suffix st <> "b".
Proof.
  eexists. split; [reflexivity|]. repeat split. discriminate.
Qed.

Lemma firstn_app_exact (before after : list string) :
  firstn (List.length before) (before ++ after) = before.
Proof.
  rewrite firstn_app, Nat.sub_diag, firstn_all. simpl. apply app_nil_r.
Qed.

Lemma skipn_app_exact (before : list string) (x : string)
    (after : list string) :
  skipn (List.length before + 1) (before ++ x :: after) = after.
Proof.
  induction before as [|y before IH]; simpl; [reflexivity | exact IH].
Qed.

Lemma redirect_stage_none (home : string -> string) (op : string)
    (v : string * string * list string) :
  ~ In op (snd v) -> redirect_stage home op v = v.
Proof.
  destruct v as [[o ot] toks]. simpl. intros H.
  now rewrite list_index_none.
Qed.

Lemma output_stage_none (home : string -> string) (tokens : list string) :
  ~ In constants.REDIRECTION_OUTPUT tokens ->
  ~ In constants.REDIRECTION_APPEND tokens ->
  output_stage home tokens = (EmptyString, EmptyString, tokens).
Proof.
  intros H1 H2. unfold output_stage.
  rewrite (redirect_stage_none home constants.REDIRECTION_OUTPUT) by exact H1.
  now apply redirect_stage_none.
Qed.

(** What [assemble] puts in the three fields of the pipe and of the
    redirection. *)
Lemma assemble_pipe_output (home : string -> string) (p : StatementParser)
    (line : string) (tokens : list string) :
  let rest := remaining_tokens p line tokens in
  pipe_to (assemble home p line tokens) = fst (pipe_stage home rest)
  /\ output (assemble home p line tokens)
     = fst (fst (output_stage home (snd (pipe_stage home rest))))
  /\ output_to (assemble home p line tokens)
     = snd (fst (output_stage home (snd (pipe_stage home rest)))).
Proof.
  unfold assemble, remaining_tokens.
  destruct (locate_terminator p line tokens) as [pos t]. cbn [fst snd].
  destruct (pipe_stage home _) as [pt toks]. cbn [fst snd].
  destruct (output_stage home toks) as [[o ot] toks'].
  destruct (truthy t); [simpl; tauto|].
  destruct (negb _); [|simpl; tauto].
  destruct (_command_and_args toks'). simpl. tauto.
Qed.

(** C3 (amended): a pipe is looked for before a redirection.  On
    [cmd | wc > out.txt], [pipe_to] is every token after the pipe operator
    and [output] and [output_to] are empty.  In general, when the pipe
    operator is among the tokens left once the terminator has been dealt
    with (those the search looks at), every token after its first
    occurrence goes to [pipe_to], unquoted and home-expanded, and the
    redirection is read from the tokens before it alone. *)
Theorem C3_pipe_before_redirection (home : string -> string) :
  parse home default_parser "cmd | wc > out.txt"
  = OK {| str_value := EmptyString;
          args := EmptyString;
          raw := "cmd | wc > out.txt";
          command := "cmd";
          arg_list := [];
          multiline_command := EmptyString;
          terminator := EmptyString;
          suffix := EmptyString;
          pipe_to := ["wc"; ">"; "out.txt"];
          output := EmptyString;
          output_to := EmptyString |}
  /\ forall p line tokens before after,
       tokenize p line = OK tokens ->
       remaining_tokens p line tokens
       = (before ++ constants.REDIRECTION_PIPE :: after)%list ->
       ~ In constants.REDIRECTION_PIPE before ->
       exists st,
         parse home p line = OK st
         /\ pipe_to st
            = map (fun tok => expanduser home (utils.strip_quotes tok)) after
         /\ output st = fst (fst (output_stage home before))
         /\ output_to st = snd (fst (output_stage home before))
         /\ (~ In constants.REDIRECTION_OUTPUT before ->
             ~ In constants.REDIRECTION_APPEND before ->
             output st = EmptyString /\ output_to st = EmptyString).
Proof.
  split; [reflexivity|].
  intros p line tokens before after Htok Hrest Hpipe.
  unfold parse. rewrite Htok. eexists. split; [reflexivity|].
  destruct (assemble_pipe_output home p line tokens) as (Hp & Ho & Hot).
  rewrite Hrest in Hp, Ho, Hot. unfold pipe_stage in Hp, Ho, Hot.
  rewrite list_index_app in Hp, Ho, Hot by assumption.
  cbn [fst snd] in Hp, Ho, Hot.
  rewrite skipn_app_exact in Hp. rewrite firstn_app_exact in Ho, Hot.
  repeat split; try assumption.
  - rewrite Ho, output_stage_none by assumption. reflexivity.
  - rewrite Hot, output_stage_none by assumption. reflexivity.
Qed.

(** The hypotheses of the general part of C3 hold for
    [cmd ; x | sort "a b" > ~/f]. *)
Lemma C3_pipe_before_redirection_witness :
  exists st,
    parse home_of_user default_parser
          ("cmd ; x | sort " ++ str1 DQ ++ "a b" ++ str1 DQ ++ " > ~/f")
    = OK st
    /\ pipe_to st = ["sort"; "a b"; ">"; "/home/user/f"]
    /\ output st = EmptyString
    /\ output_to st = EmptyString
    /\ (~ In constants.REDIRECTION_OUTPUT ["x"] ->
        ~ In constants.REDIRECTION_APPEND ["x"] ->
        output st = EmptyString /\ output_to st = EmptyString).
Proof.
  apply (proj2 (C3_pipe_before_redirection home_of_user) default_parser
           ("cmd ; x | sort " ++ str1 DQ ++ "a b" ++ str1 DQ ++ " > ~/f")
           ["cmd"; ";"; "x"; "|"; "sort"; str1 DQ ++ "a b" ++ str1 DQ; ">";
            "~/f"]
           ["x"]
           ["sort"; str1 DQ ++ "a b" ++ str1 DQ; ">"; "~/f"]).
  - reflexivity.
  - reflexivity.
  - intros [H|[]]. discriminate H.
Defined.

(** C3, as it is stated, fails when the pipe operator stands before the
    terminator: on [cmd | wc ; x > out] the tokens after the pipe operator
    are arguments, [pipe_to] is empty and [> out] is read as the
    redirection. *)
Lemma C3_counterexample :
  tokenize default_parser "cmd | wc ; x > out"
  = OK ["cmd"; "|"; "wc"; ";"; "x"; ">"; "out"]
  /\ exists st,
       parse home_of_user default_parser "cmd | wc ; x > out" = OK st
       /\ pipe_to st = []
       /\ args st = "| wc"
       /\ output st = ">"
       /\ output_to st = "out".
Proof.
  split; [reflexivity|]. eexists. split; [reflexivity|]. repeat split.
Qed.

Lemma command_and_args_empty (tokens : list string) :
  all_nonempty tokens ->
  fst (_command_and_args tokens) = EmptyString ->
  tokens = [].
Proof.
  destruct tokens as [|tok tokens]; [reflexivity|].
  intros H E. inversion H; subst. simpl in E. congruence.
Qed.

(** C4: a multiline command with no terminator on its line takes the
    whole line.  With [sql] as multiline command,
    [sql select * > out.txt] gives the command [sql], the arguments
    [select * > out.txt] and no redirection or pipe.  In general, when the
    line does not end with a line feed, no token starts with a configured
    terminator and the first token is a multiline command, every token
    after the first is an argument and [output], [output_to] and [pipe_to]
    are empty. *)
Theorem C4_multiline_without_terminator (home : string -> string) :
  parse home parser_sql "sql select * > out.txt"
  = OK {| str_value := "select * > out.txt";
          args := "select * > out.txt";
          raw := "sql select * > out.txt";
          command := "sql";
          arg_list := ["select"; "*"; ">"; "out.txt"];
          multiline_command := "sql";
          terminator := EmptyString;
          suffix := EmptyString;
          pipe_to := [];
          output := EmptyString;
          output_to := EmptyString |}
  /\ forall p line tokens,
       tokenize p line = OK tokens ->
       last_char line <> constants.LINE_FEED ->
       (forall tok t, In tok tokens -> In t (terminators p) ->
                      startswith tok t = false) ->
       str_in (fst (_command_and_args tokens)) (multiline_commands p) = true ->
       exists st,
         parse home p line = OK st
         /\ (command st, args st) = _command_and_args tokens
         /\ arg_list st = skipn 1 tokens
         /\ multiline_command st = command st
         /\ terminator st = EmptyString
         /\ suffix st = EmptyString
         /\ pipe_to st = []
         /\ output st = EmptyString
         /\ output_to st = EmptyString.
Proof.
  split; [reflexivity|].
  intros p line tokens Htok Hlf Hnone Hml.
  pose proof (tokenize_nonempty _ _ _ Htok) as Hne.
  unfold parse. rewrite Htok. eexists. split; [reflexivity|].
  unfold assemble, locate_terminator.
  rewrite (find_terminator_none _ _ _ Hnone).
  destruct (String.eqb_spec (last_char line) constants.LINE_FEED) as [E|_];
    [contradiction|].
  unfold split_at_terminator. cbn [truthy].
  destruct (_command_and_args tokens) as [c a] eqn:Eca. cbn [fst] in Hml.
  rewrite Hml. cbn -[str_in skipn].
  destruct c as [|c0 c]; cbn -[str_in skipn].
  - assert (tokens = []) as ->
        by (apply command_and_args_empty; [assumption | now rewrite Eca]).
    injection Eca as <-. rewrite Hml. simpl. tauto.
  - rewrite Hml. tauto.
Qed.

(** The hypotheses of the general part of C4 hold for
    [sql select * | wc]. *)
Lemma C4_multiline_without_terminator_witness :
  exists st,
    parse home_of_user parser_sql "sql select * | wc" = OK st
    /\ (command st, args st) = ("sql", "select * | wc")
    /\ arg_list st = ["select"; "*"; "|"; "wc"]
    /\ multiline_command st = command st
    /\ terminator st = EmptyString
    /\ suffix st = EmptyString
    /\ pipe_to st = []
    /\ output st = EmptyString
    /\ output_to st = EmptyString.
Proof.
  apply (proj2 (C4_multiline_without_terminator home_of_user) parser_sql
           "sql select * | wc" ["sql"; "select"; "*"; "|"; "wc"]).
  - reflexivity.
  - discriminate.
  - intros tok t [<-|[<-|[<-|[<-|[<-|[]]]]]] [<-|[]]; reflexivity.
  - reflexivity.
Defined.

(** ** Invariants of the statement *)

Lemma all_nonempty_firstn (n : nat) (l : list string) :
  all_nonempty l -> all_nonempty (firstn n l).
Proof.
  unfold all_nonempty. intros H. revert n.
  induction H as [|x l Hx _ IH]; intros [|n]; simpl; constructor; auto.
Qed.

Lemma pipe_stage_nonempty (home : string -> string) (tokens : list string) :
  all_nonempty tokens -> all_nonempty (snd (pipe_stage home tokens)).
Proof.
  intros H. unfold pipe_stage.
  destruct (list_index _ tokens); simpl;
    [now apply all_nonempty_firstn | assumption].
Qed.

Lemma redirect_stage_nonempty (home : string -> string) (op : string)
    (v : string * string * list string) :
  all_nonempty (snd v) -> all_nonempty (snd (redirect_stage home op v)).
Proof.
  destruct v as [[o ot] toks]. simpl. intros H.
  destruct (list_index op toks); simpl;
    [now apply all_nonempty_firstn | assumption].
Qed.

Lemma output_stage_nonempty (home : string -> string) (tokens : list string) :
  all_nonempty tokens -> all_nonempty (snd (output_stage home tokens)).
Proof.
  intros H. unfold output_stage. now do 2 apply redirect_stage_nonempty.
Qed.

Lemma slice_of_empty_firstn (n : nat) (l : list string) :
  firstn n l = [] -> slice 1 n l = [].
Proof.
  unfold slice. destruct n as [|n]; [reflexivity|].
  destruct l as [|x l]; [intros _; now destruct (S n - 1) | discriminate].
Qed.

Lemma assemble_command_empty (home : string -> string) (p : StatementParser)
    (line : string) (tokens : list string) :
  all_nonempty tokens ->
  command (assemble home p line tokens) = EmptyString ->
  args (assemble home p line tokens) = EmptyString
  /\ arg_list (assemble home p line tokens) = []
  /\ multiline_command (assemble home p line tokens) = EmptyString.
Proof.
  intros Hne. unfold assemble.
  destruct (locate_terminator p line tokens) as [pos t].
  unfold split_at_terminator.
  destruct (truthy t) eqn:Et.
  - set (pos' := if (t =? constants.LINE_FEED)%string
                 then List.length tokens + 1 else pos).
    pose proof (command_and_args_empty (firstn pos' tokens)
                  (all_nonempty_firstn pos' tokens Hne)) as Hfirst.
    destruct (_command_and_args (firstn pos' tokens)) as [c a] eqn:Eca.
    cbn [v_tokens v_command v_args v_arg_list].
    destruct (pipe_stage home _) as [pt toks].
    destruct (output_stage home toks) as [[o ot] toks'].
    cbn -[str_in slice]. intros ->.
    specialize (Hfirst eq_refl). rewrite Hfirst in Eca.
    injection Eca as <-.
    rewrite (slice_of_empty_firstn _ _ Hfirst).
    repeat split. now destruct (str_in EmptyString (multiline_commands p)).
  - destruct (_command_and_args tokens) as [tc ta] eqn:Eca.
    destruct (str_in tc (multiline_commands p)) eqn:Eml;
      cbn [v_tokens v_command v_args v_arg_list].
    + cbn -[str_in]. destruct tc as [|c0 tc]; cbn -[str_in].
      * intros _. repeat split.
        now destruct (str_in EmptyString (multiline_commands p)).
      * discriminate.
    + pose proof (pipe_stage_nonempty home tokens Hne) as Hp.
      destruct (pipe_stage home tokens) as [pt toks]. cbn [snd] in Hp.
      pose proof (output_stage_nonempty home toks Hp) as Ho.
      destruct (output_stage home toks) as [[o ot] toks']. cbn [snd] in Ho.
      cbn [truthy negb].
      pose proof (command_and_args_empty toks' Ho) as Hlast.
      destruct (_command_and_args toks') as [c a] eqn:Eca'.
      cbn -[str_in skipn]. intros ->.
      specialize (Hlast eq_refl). subst toks'. injection Eca' as <-.
      repeat split. now destruct (str_in EmptyString (multiline_commands p)).
Qed.

(** C9 (amended): in every statement [parse] returns, an empty command
    comes with empty arguments, an empty argument list and an empty
    multiline command. *)
Theorem C9_empty_command (home : string -> string) (p : StatementParser)
    (line : string) (st : Statement) :
  parse home p line = OK st ->
  command st = EmptyString ->
  args st = EmptyString
  /\ arg_list st = []
  /\ multiline_command st = EmptyString.
Proof.
  unfold parse. destruct (tokenize p line) as [tokens|] eqn:Htok;
    [|discriminate].
  intros [= <-]. apply assemble_command_empty.
  eapply tokenize_nonempty, Htok.
Qed.

(** The hypotheses of C9 hold for the line [; x], whose first token is the
    terminator. *)
Lemma C9_empty_command_witness :
  args (assemble home_of_user default_parser "; x" [";"; "x"]) = EmptyString
  /\ arg_list (assemble home_of_user default_parser "; x" [";"; "x"]) = []
  /\ multiline_command (assemble home_of_user default_parser "; x" [";"; "x"])
     = EmptyString.
Proof.
  apply (C9_empty_command home_of_user default_parser "; x"
           (assemble home_of_user default_parser "; x" [";"; "x"])).
  - reflexivity.
  - reflexivity.
Defined.

(** C9, as it is stated, fails from right to left: [cmd] has empty
    arguments, an empty argument list and an empty multiline command, and
    its command is not empty. *)
Lemma C9_counterexample :
  exists st,
    parse home_of_user default_parser "cmd" = OK st
    /\ args st = EmptyString
    /\ arg_list st = []
    /\ multiline_command st = EmptyString
    /\ command st = "cmd"
    /\ command st <> EmptyString.
Proof.
  eexists. split; [reflexivity|]. repeat split. discriminate.
Qed.

Lemma command_and_args_join (tokens : list string) :
  snd (_command_and_args tokens) = join " " (skipn 1 tokens).
Proof.
  destruct tokens as [|tok [|tok' tokens]]; reflexivity.
Qed.

Lemma skipn_one_firstn (n : nat) (l : list string) :
  skipn 1 (firstn n l) = slice 1 n l.
Proof.
  unfold slice. destruct n as [|n]; [reflexivity|].
  destruct l as [|x l]; simpl; [now destruct (n - 0)|].
  now rewrite Nat.sub_0_r.
Qed.

Lemma assemble_str_value (home : string -> string) (p : StatementParser)
    (line : string) (tokens : list string) :
  str_value (assemble home p line tokens) = args (assemble home p line tokens)
  /\ args (assemble home p line tokens)
     = join " " (arg_list (assemble home p line tokens))
  /\ raw (assemble home p line tokens) = line.
Proof.
  unfold assemble.
  destruct (locate_terminator p line tokens) as [pos t].
  assert (Hv : v_args (split_at_terminator p pos t tokens)
               = join " " (v_arg_list (split_at_terminator p pos t tokens))).
  { unfold split_at_terminator. destruct (truthy t).
    - set (pos' := if (t =? constants.LINE_FEED)%string
                   then List.length tokens + 1 else pos).
      pose proof (command_and_args_join (firstn pos' tokens)) as H.
      destruct (_command_and_args (firstn pos' tokens)) as [c a].
      cbn [v_args v_arg_list]. cbn [snd] in H.
      now rewrite H, skipn_one_firstn.
    - pose proof (command_and_args_join tokens) as H.
      destruct (_command_and_args tokens) as [c a]. cbn [snd] in H.
      destruct (str_in c (multiline_commands p)); [exact H | reflexivity]. }
  destruct (pipe_stage home _) as [pt toks].
  destruct (output_stage home toks) as [[o ot] toks'].
  destruct (truthy t); [repeat split; exact Hv|].
  destruct (negb _); [|repeat split; exact Hv].
  pose proof (command_and_args_join toks') as H.
  destruct (_command_and_args toks'). repeat split. exact H.
Qed.

(** ** Errors *)



(** ** Alias expansion *)

Lemma list_remove_perm (a : string) (l : list string) :
  In a l -> Permutation (a :: list_remove a l) l.
Proof.
  induction l as [|y l IH]; simpl; [tauto|].
  destruct (String.eqb_spec y a) as [->|Hne]; [reflexivity|].
  intros [->|Hin]; [congruence|].
  etransitivity; [apply perm_swap|]. now constructor; apply IH.
Qed.

(** One run of the [for] loop: either no alias matched, and only
    [keep_expanding] changed, or one alias of the list was expanded and
    taken off [tmp_aliases]. *)
Lemma for_cur_alias_cases (p : StatementParser) (todo : list string) :
  forall st,
    todo <> [] ->
    let st' := for_cur_alias p todo st in
    (tmp_aliases st' = tmp_aliases st
     /\ cur_line st' = cur_line st
     /\ applied st' = applied st
     /\ keep_expanding st' = false)
    \/ (exists a,
          In a todo
          /\ tmp_aliases st' = list_remove a (tmp_aliases st)
          /\ applied st' = (applied st ++ [a])%list
          /\ keep_expanding st'
             = match tmp_aliases st' with [] => false | _ => true end).
Proof.
  induction todo as [|a todo IH]; intros st Hne; [congruence|].
  cbn [for_cur_alias]. cbn [cur_line tmp_aliases applied].
  set (st1 := {| tmp_aliases := tmp_aliases st; cur_line := cur_line st;
                 keep_expanding := false; applied := applied st |}).
  assert (Hrest :
    let st' := for_cur_alias p todo st1 in
    (tmp_aliases st' = tmp_aliases st /\ cur_line st' = cur_line st
     /\ applied st' = applied st /\ keep_expanding st' = false)
    \/ (exists a0, In a0 (a :: todo)
          /\ tmp_aliases st' = list_remove a0 (tmp_aliases st)
          /\ applied st' = (applied st ++ [a0])%list
          /\ keep_expanding st'
             = match tmp_aliases st' with [] => false | _ => true end)).
  { destruct todo as [|b todo]; [left; cbn; tauto|].
    destruct (IH st1 ltac:(discriminate)) as [H|(a0 & Hin & H)].
    - left. exact H.
    - right. exists a0. split; [now right | exact H]. }
  destruct (command_pattern_search p (cur_line st)) as [m|]; [|exact Hrest].
  destruct (truthy (group1 m) && (group1 m =? a)%string); [|exact Hrest].
  right. exists a. cbn. repeat split. now left.
Qed.

(** The loop is left after no more rounds than there are aliases left. *)
Lemma while_keep_expanding_exits (p : StatementParser) (fuel : nat) :
  forall st,
    (keep_expanding st = true ->
     tmp_aliases st <> [] /\ List.length (tmp_aliases st) <= fuel) ->
    let st' := while_keep_expanding fuel p st in
    keep_expanding st' = false
    /\ while_exec p st st'
    /\ Permutation (applied st' ++ tmp_aliases st')
                   (applied st ++ tmp_aliases st).
Proof.
  induction fuel as [|fuel IH]; intros st Hst; cbn [while_keep_expanding].
  - destruct (keep_expanding st) eqn:K.
    + destruct (Hst eq_refl) as [Hne Hlen].
      destruct (tmp_aliases st); [congruence | simpl in Hlen; lia].
    + cbv zeta. repeat split;
        first [assumption | reflexivity | now constructor].
  - destruct (keep_expanding st) eqn:K;
      [|cbv zeta; repeat split;
        first [assumption | reflexivity | now constructor]].
    destruct (Hst eq_refl) as [Hne Hlen].
    pose proof (for_cur_alias_cases p (tmp_aliases st) st Hne) as Hcases.
    cbv zeta in Hcases.
    set (st1 := for_cur_alias p (tmp_aliases st) st) in *.
    assert (Hst1 : keep_expanding st1 = true ->
                   tmp_aliases st1 <> []
                   /\ List.length (tmp_aliases st1) <= fuel).
    { destruct Hcases as [(_ & _ & _ & Hk)|(a & Hin & Ht & _ & Hk)];
        [congruence|].
      intros K1. rewrite K1 in Hk. split.
      - destruct (tmp_aliases st1); [discriminate | discriminate].
      - pose proof (list_remove_length a _ Hin) as L. rewrite <- Ht in L. lia. }
    destruct (IH st1 Hst1) as (Hk & Hexec & Hperm). cbv zeta.
    repeat split; [assumption | now apply while_round with (1 := K) |].
    etransitivity; [exact Hperm|].
    destruct Hcases as [(Ht & _ & Ha & _)|(a & Hin & Ht & Ha & _)].
    + now rewrite Ht, Ha.
    + rewrite Ht, Ha, <- app_assoc. apply Permutation_app_head.
      now apply list_remove_perm.
Qed.

(** More fuel than the loop uses changes nothing. *)
Lemma while_keep_expanding_fuel (p : StatementParser) (fuel k : nat) :
  forall st,
    keep_expanding (while_keep_expanding fuel p st) = false ->
    while_keep_expanding (fuel + k) p st = while_keep_expanding fuel p st.
Proof.
  induction fuel as [|fuel IH]; intros st H; cbn [while_keep_expanding] in *.
  - destruct k; cbn [Nat.add while_keep_expanding]; [reflexivity|].
    now rewrite H.
  - cbn [Nat.add while_keep_expanding].
    destruct (keep_expanding st); [now apply IH | reflexivity].
Qed.

(** The loop, seen as a relation, has one result at most. *)
Lemma while_exec_deterministic (p : StatementParser)
    (st st1 st2 : expand_state) :
  while_exec p st st1 -> while_exec p st st2 -> st1 = st2.
Proof.
  intros H1. revert st2.
  induction H1 as [st K|st st1 K _ IH]; intros st2 H2.
  - inversion H2; subst; [reflexivity | congruence].
  - inversion H2; subst; [congruence | now apply IH].
Qed.

(** C6: the alias loop of [_expand] terminates for every alias table and
    every line.  The loop is left in the state [expand_aliases] computes,
    more rounds than there are aliases are never needed, at most as many
    expansions as there are aliases are made, and each alias is expanded
    once at most.  With the cycle [a -> b], [b -> a], the line [a] is
    expanded twice, once for each alias; an alias that refers to itself is
    expanded once. *)
Theorem C6_alias_expansion_terminates (p : StatementParser) (line : string) :
  let final := expand_aliases p line in
  while_exec p (expand_init p line) final
  /\ (forall st, while_exec p (expand_init p line) st -> st = final)
  /\ keep_expanding final = false
  /\ (forall fuel, List.length (alias_keys p) <= fuel ->
        while_keep_expanding fuel p (expand_init p line) = final)
  /\ List.length (applied final) <= List.length (aliases p)
  /\ incl (applied final) (alias_keys p)
  /\ (NoDup (alias_keys p) -> NoDup (applied final))
  /\ expand_aliases parser_cycle "a"
     = {| tmp_aliases := []; cur_line := "a"; keep_expanding := false;
          applied := ["a"; "b"] |}
  /\ expand_aliases parser_self_alias "ls x"
     = {| tmp_aliases := []; cur_line := "ls -l x"; keep_expanding := false;
          applied := ["ls"] |}
  /\ _expand parser_self_alias "ls x" = "ls -l x".
Proof.
  cbv zeta. unfold expand_aliases.
  assert (Hinit : keep_expanding (expand_init p line) = true ->
                  tmp_aliases (expand_init p line) <> []
                  /\ List.length (tmp_aliases (expand_init p line))
                     <= List.length (alias_keys p)).
  { cbn. destruct (alias_keys p); [discriminate|]. split; [discriminate|lia]. }
  destruct (while_keep_expanding_exits p _ _ Hinit) as (Hk & Hexec & Hperm).
  cbn [expand_init applied tmp_aliases app] in Hperm.
  set (final := while_keep_expanding _ p (expand_init p line)) in *.
  assert (Hsub : Permutation (alias_keys p)
                             (applied final ++ tmp_aliases final))
    by now symmetry.
  repeat split; try reflexivity; try assumption.
  - intros st Hst. eapply while_exec_deterministic; eassumption.
  - intros fuel Hfuel.
    replace fuel with (List.length (alias_keys p)
                       + (fuel - List.length (alias_keys p))) by lia.
    now apply while_keep_expanding_fuel.
  - apply Permutation_length in Hsub.
    rewrite length_app in Hsub. unfold alias_keys in Hsub.
    rewrite length_map in Hsub. lia.
  - intros a Ha. eapply Permutation_in; [symmetry; exact Hsub|].
    apply in_or_app. now left.
  - intros Hnd. eapply Permutation_NoDup in Hnd; [|exact Hsub].
    now apply NoDup_app_remove_r in Hnd.
Qed.

(** ** Command names *)

Lemma match_literal_some (items : list string) (s x r : string) :
  match_literal items s = Some (x, r) ->
  In x items /\ startswith s x = true.
Proof.
  induction items as [|y items IH]; simpl; [discriminate|].
  destruct (startswith s y) eqn:E.
  - intros [= <- _]. auto.
  - intros H. destruct (IH H). auto.
Qed.

Lemma match_literal_none (items : list string) (s : string) :
  match_literal items s = None <->
  forall x, In x items -> startswith s x = false.
Proof.
  induction items as [|y items IH]; simpl.
  - split; [intros _ x [] | reflexivity].
  - destruct (startswith s y) eqn:E.
    + split; [discriminate|]. intros H. rewrite (H y) in E by now left.
      discriminate.
    + rewrite IH. split.
      * intros H x [<-|Hx]; auto.
      * intros H x Hx. apply H. now right.
Qed.

(** The second group fails at [s] exactly when [s] has a first character
    and starts with nothing forbidden. *)
Lemma match_second_group_none (p : StatementParser) (s : string) :
  match_second_group p s = None <->
  s <> EmptyString /\ ~ forbidden_at p s.
Proof.
  unfold match_second_group, forbidden_at, invalid_command_chars.
  destruct (match_literal _ s) as [[x r]|] eqn:E.
  - split; [discriminate|]. intros [_ H]. exfalso. apply H. left.
    apply match_literal_some in E. now exists x.
  - rewrite match_literal_none in E.
    destruct s as [|c s'].
    + split; [discriminate | intros [H _]; congruence].
    + destruct (is_space c) eqn:Ec.
      * split; [discriminate|]. intros [_ H]. exfalso. apply H. right.
        now exists c, s'.
      * split; [|reflexivity]. intros _. split; [discriminate|].
        intros [(x & Hx & Hs)|(c' & s'' & [= <- <-] & Hc)].
        -- rewrite (E x Hx) in Hs. discriminate.
        -- congruence.
Qed.

(** The first group takes the whole of [s] exactly when [s] is clean. *)
Lemma match_groups_whole (p : StatementParser) (s : string) :
  (exists m, match_groups p s = Some m /\ group1 m = s) <-> clean_word p s.
Proof.
  unfold clean_word. induction s as [|c s IH].
  - split.
    + intros _ pre suf H Hsuf. destruct pre; [simpl in H; congruence|].
      discriminate.
    + intros _. cbn [match_groups].
      destruct (match_second_group p EmptyString) as [[g2 rest]|] eqn:E.
      * eexists. split; reflexivity.
      * apply match_second_group_none in E. destruct E; congruence.
  - cbn [match_groups].
    destruct (match_second_group p (String c s)) as [[g2 rest]|] eqn:E.
    + split.
      * intros (m & [= <-] & H). discriminate.
      * intros H. exfalso.
        assert (N : match_second_group p (String c s) = None).
        { apply match_second_group_none. split; [discriminate|].
          apply (H EmptyString); [reflexivity | discriminate]. }
        congruence.
    + apply match_second_group_none in E. destruct E as [_ E].
      assert (Hc : is_space c = false).
      { destruct (is_space c) eqn:Ec; [|reflexivity].
        exfalso. apply E. right. now exists c, s. }
      rewrite Hc. split.
      * intros (m & Hm & Hg).
        destruct (match_groups p s) as [m'|]; [|discriminate].
        injection Hm as <-. simpl in Hg. injection Hg as Hg.
        assert (Hs : forall pre suf, s = pre ++ suf -> suf <> EmptyString ->
                                     ~ forbidden_at p suf)
          by (apply IH; now exists m').
        intros pre suf H Hsuf. destruct pre as [|c' pre].
        -- simpl in H. now subst suf.
        -- injection H as _ H. now apply (Hs pre).
      * intros H.
        assert (Hs : exists m, match_groups p s = Some m /\ group1 m = s).
        { apply IH. intros pre suf Hp. apply (H (String c pre)).
          simpl. now rewrite Hp. }
        destruct Hs as (m' & -> & Hg). eexists. split; [reflexivity|].
        simpl. now rewrite Hg.
Qed.

Lemma match_groups_length (p : StatementParser) (s : string) (m : Match) :
  match_groups p s = Some m -> String.length (group1 m) <= String.length s.
Proof.
  revert m. induction s as [|c s IH]; intros m; cbn [match_groups].
  - destruct (match_second_group p _) as [[g2 rest]|]; [|discriminate].
    intros [= <-]. simpl. lia.
  - destruct (match_second_group p _) as [[g2 rest]|].
    + intros [= <-]. simpl. lia.
    + destruct (is_space c); [discriminate|].
      destruct (match_groups p s) as [m'|]; [|discriminate].
      intros [= <-]. simpl. specialize (IH m' eq_refl). lia.
Qed.

Lemma match_spaces_groups_length (p : StatementParser) (s : string)
    (m : Match) :
  match_spaces_groups p s = Some m ->
  String.length (group1 m) <= String.length s.
Proof.
  revert m. induction s as [|c s IH]; intros m; cbn [match_spaces_groups].
  - apply match_groups_length.
  - destruct (is_space c); [|apply match_groups_length].
    destruct (match_spaces_groups p s) as [m'|].
    + intros [= <-]. specialize (IH m' eq_refl). simpl. lia.
    + apply match_groups_length.
Qed.

(** With the white space in front, the first group still takes the whole
    word exactly when the word is clean. *)
Lemma command_pattern_search_whole (p : StatementParser) (word : string) :
  (exists m, command_pattern_search p word = Some m /\ group1 m = word)
  <-> clean_word p word.
Proof.
  rewrite <- match_groups_whole. unfold command_pattern_search.
  destruct word as [|c s]; [reflexivity|]. cbn [match_spaces_groups].
  destruct (is_space c) eqn:Ec; [|reflexivity].
  split.
  - intros (m & Hm & Hg).
    destruct (match_spaces_groups p s) as [m'|] eqn:E; [|now exists m].
    injection Hm as <-. apply match_spaces_groups_length in E.
    rewrite Hg in E. simpl in E. lia.
  - intros (m & Hm & Hg). exfalso. cbn [match_groups] in Hm.
    destruct (match_second_group p (String c s)) as [[g2 rest]|] eqn:E.
    + injection Hm as <-. discriminate.
    + apply match_second_group_none in E. destruct E as [_ E].
      apply E. right. now exists c, s.
Qed.

(** C7 (amended): [is_valid_command] accepts a word exactly when the first
    group of the leading-word pattern takes the whole word, that is when
    no white space, quote, redirection character or configured terminator
    starts at any place inside the word; the empty word is accepted.  A
    word that is accepted comes with an empty message, one that is refused
    with the message that names white space, quotes, the redirection
    characters and the terminators; [>] is refused. *)
Theorem C7_valid_command (p : StatementParser) (word : string) :
  (fst (is_valid_command p word) = true <-> clean_word p word)
  /\ (fst (is_valid_command p word) = true ->
      snd (is_valid_command p word) = EmptyString)
  /\ (fst (is_valid_command p word) = false ->
      snd (is_valid_command p word)
      = "whitespace, quotes, "
        ++ join ", " (map shlex_quote
                          (constants.REDIRECTION_CHARS ++ terminators p)%list)
      /\ snd (is_valid_command p word) <> EmptyString)
  /\ is_valid_command default_parser ">"
     = (false, "whitespace, quotes, '|', '>', ';'")
  /\ is_valid_command default_parser "cmd" = (true, EmptyString)
  /\ is_valid_command default_parser EmptyString = (true, EmptyString).
Proof.
  split.
  { rewrite <- command_pattern_search_whole. unfold is_valid_command.
    destruct (command_pattern_search p word) as [m|].
    - destruct (String.eqb_spec word (group1 m)) as [E|E]; simpl.
      + split; [intros _; now exists m | reflexivity].
      + split; [discriminate|]. intros (m' & [= <-] & H). congruence.
    - simpl. split; [discriminate|]. intros (m & H & _). discriminate. }
  split; [|split].
  - unfold is_valid_command.
    destruct (command_pattern_search p word) as [m|]; [|discriminate].
    destruct (word =? group1 m)%string; [reflexivity | discriminate].
  - unfold is_valid_command.
    destruct (command_pattern_search p word) as [m|];
      [|split; [reflexivity | discriminate]].
    destruct (word =? group1 m)%string;
      [discriminate | split; [reflexivity | discriminate]].
  - repeat split; reflexivity.
Qed.

(** C7, as it is stated, fails on the empty word, which is accepted. *)
Lemma C7_counterexample :
  fst (is_valid_command default_parser EmptyString) = true
  /\ String.length EmptyString = 0.
Proof. split; reflexivity. Qed.

(** ** Comments *)

(** A line in which no [*/] occurs is left as it is. *)
Lemma re_sub_comments_no_close (fuel : nat) :
  forall line,
    String.length line <= fuel ->
    (forall pre suf, line = pre ++ suf -> startswith suf "*/" = false) ->
    re_sub_comments fuel line = line.
Proof.
  induction fuel as [|fuel IH]; intros line Hlen Hno; [reflexivity|].
  cbn [re_sub_comments].
  destruct (comment_pattern_match line) as [[m r]|] eqn:E.
  - pose proof (comment_pattern_match_split _ _ _ E) as [Hsplit Hm].
    assert (Hr : re_sub_comments fuel r = r).
    { apply IH.
      - subst line. rewrite string_length_append in Hlen.
        destruct m; [congruence | simpl in Hlen; lia].
      - intros pre suf Hp. apply (Hno (m ++ pre)).
        subst line r. clear. induction m; simpl; [reflexivity | now f_equal]. }
    rewrite Hr. unfold _comment_replacer.
    destruct (startswith m "/") eqn:Es; [|now symmetry].
    exfalso. unfold comment_pattern_match in E.
    destruct line as [|c s]; [discriminate|].
    destruct (startswith (String c s) "/*") eqn:Ec.
    + destruct (greedy_to_close (drop 2 (String c s))) as [[m' r']|] eqn:G;
        [|discriminate].
      clear - G Hno Ec. apply startswith_split in Ec.
      change (String.length "/*") with 2 in Ec.
      remember (drop 2 (String c s)) as t eqn:Et. clear Et.
      simpl in Ec. injection Ec as -> Ec. rewrite Ec in Hno. clear Ec.
      assert (Hno' : forall pre suf, t = pre ++ suf ->
                                     startswith suf "*/" = false).
      { intros pre suf Hp. apply (Hno ("/*" ++ pre)). simpl. now rewrite Hp. }
      clear Hno. revert m' r' G Hno'.
      induction t as [|d t IHt]; intros m' r' G Hno'; [discriminate|].
      simpl in G. destruct (greedy_to_close t) as [[m1 r1]|] eqn:G1.
      * eapply IHt; [reflexivity|]. intros pre suf Hp.
        apply (Hno' (String d pre)). simpl. now rewrite Hp.
      * rewrite (Hno' EmptyString (String d t) eq_refl) in G.
        cbv beta iota in G. discriminate G.
    + destruct ((c =? SQ)%char || (c =? DQ)%char) eqn:Eq; [|discriminate].
      destruct (quoted_to_close c s) as [[m' r']|]; [|discriminate].
      injection E as <- _. unfold startswith in Es. cbn [prefix] in Es.
      destruct (ascii_dec "/" c) as [<-|];
        [vm_compute in Eq; discriminate Eq | discriminate Es].
  - destruct line as [|c line]; [reflexivity|]. f_equal. apply IH.
    + simpl in Hlen. lia.
    + intros pre suf Hp. apply (Hno (String c pre)). simpl. now rewrite Hp.
Qed.

(** C8 (what the code does): the comment pattern runs from the first [/*]
    outside a quoted string to the last [*/] of the line, so the quoted
    string between two comments is deleted with them; with one comment
    after a quoted string, the comment alone is deleted, and a line
    without [*/] is left as it is. *)
Theorem C8_comment_stripper :
  strip_comments quote_between_comments = "say "
  /\ strip_comments quoted_then_comment
     = "say " ++ str1 DQ ++ "hi /* not a comment */" ++ str1 DQ ++ " "
  /\ strip_comments "cat /tmp/*.txt /tmp/*.cfg" = "cat /tmp/*.txt /tmp/*.cfg"
  /\ forall line,
       (forall pre suf, line = pre ++ suf -> startswith suf "*/" = false) ->
       strip_comments line = line.
Proof.
  repeat split; try reflexivity.
  intros line H. now apply re_sub_comments_no_close.
Qed.

(** * Further properties *)

(** ** The fields [parse] fills *)

(** The fields of the statement, read off the local variables. *)
Lemma assemble_fields (home : string -> string) (p : StatementParser)
    (line : string) (tokens : list string) :
  let loc := locate_terminator p line tokens in
  let v := split_at_terminator p (fst loc) (snd loc) tokens in
  let toks := snd (output_stage home (snd (pipe_stage home (v_tokens v)))) in
  let st := assemble home p line tokens in
  let kept := truthy (snd loc) || truthy (v_command v) in
  terminator st = snd loc
  /\ suffix st = (if truthy (snd loc) then join " " toks else EmptyString)
  /\ command st
     = (if kept then v_command v else fst (_command_and_args toks))
  /\ args st = (if kept then v_args v else snd (_command_and_args toks))
  /\ arg_list st = (if kept then v_arg_list v else skipn 1 toks)
  /\ multiline_command st
     = (if str_in (command st) (multiline_commands p)
        then command st else EmptyString).
Proof.
  unfold assemble.
  destruct (locate_terminator p line tokens) as [pos t]. cbn [fst snd].
  destruct (pipe_stage home _) as [pt tk]. cbn [snd].
  destruct (output_stage home tk) as [[o ot] tk']. cbn [snd].
  destruct (truthy t); [cbn; tauto|].
  destruct (truthy (v_command _)); cbn; [tauto|].
  destruct (_command_and_args tk'). cbn. tauto.
Qed.

Lemma command_and_args_fst (tokens : list string) :
  fst (_command_and_args tokens)
  = match tokens with tok :: _ => tok | [] => EmptyString end.
Proof. reflexivity. Qed.

(** What [split_at_terminator] leaves in [command] and [arg_list] are the
    first tokens of the line. *)
Lemma split_at_terminator_leading (p : StatementParser) (pos : nat)
    (t : string) (tokens : list string) :
  let v := split_at_terminator p pos t tokens in
  v_command v <> EmptyString ->
  exists rest, tokens = (v_command v :: v_arg_list v ++ rest)%list.
Proof.
  unfold split_at_terminator. destruct (truthy t).
  - set (pos' := if (t =? constants.LINE_FEED)%string
                 then List.length tokens + 1 else pos).
    pose proof (command_and_args_fst (firstn pos' tokens)) as Hc.
    destruct (_command_and_args (firstn pos' tokens)) as [c a].
    cbn [fst] in Hc. cbn. intros Hne.
    rewrite <- skipn_one_firstn.
    destruct (firstn pos' tokens) as [|c' l] eqn:E; [congruence|].
    subst c. exists (skipn pos' tokens).
    rewrite <- (firstn_skipn pos' tokens) at 1. now rewrite E.
  - pose proof (command_and_args_fst tokens) as Hc.
    destruct (_command_and_args tokens) as [c a]. cbn [fst] in Hc.
    destruct (str_in c (multiline_commands p)); cbn; [|congruence].
    intros Hne. destruct tokens as [|c' l]; [congruence|]. subst c.
    exists []. cbn. now rewrite app_nil_r.
Qed.

Lemma pipe_stage_prefix (home : string -> string) (tokens : list string) :
  exists rest, tokens = (snd (pipe_stage home tokens) ++ rest)%list.
Proof.
  unfold pipe_stage. destruct (list_index _ tokens) as [i|]; cbn.
  - exists (skipn i tokens). now rewrite firstn_skipn.
  - exists []. now rewrite app_nil_r.
Qed.

Lemma redirect_stage_prefix (home : string -> string) (op : string)
    (v : string * string * list string) :
  exists rest, snd v = (snd (redirect_stage home op v) ++ rest)%list.
Proof.
  destruct v as [[o ot] toks]. cbn.
  destruct (list_index op toks) as [i|]; cbn.
  - exists (skipn i toks). now rewrite firstn_skipn.
  - exists []. now rewrite app_nil_r.
Qed.

Lemma output_stage_prefix (home : string -> string) (tokens : list string) :
  exists rest, tokens = (snd (output_stage home tokens) ++ rest)%list.
Proof.
  unfold output_stage.
  destruct (redirect_stage_prefix home constants.REDIRECTION_OUTPUT
              (EmptyString, EmptyString, tokens)) as [r1 H1].
  destruct (redirect_stage_prefix home constants.REDIRECTION_APPEND
              (redirect_stage home constants.REDIRECTION_OUTPUT
                 (EmptyString, EmptyString, tokens))) as [r2 H2].
  cbn [snd] in H1. exists (r2 ++ r1)%list.
  rewrite H1 at 1. rewrite H2 at 1. now rewrite app_assoc.
Qed.

(** The command and the argument list of a statement are the first tokens
    of its line. *)
Lemma assemble_leading_tokens (home : string -> string) (p : StatementParser)
    (line : string) (tokens : list string) :
  command (assemble home p line tokens) <> EmptyString ->
  exists rest,
    tokens = (command (assemble home p line tokens)
              :: arg_list (assemble home p line tokens) ++ rest)%list.
Proof.
  destruct (assemble_fields home p line tokens)
    as (_ & _ & Hc & _ & Ha & _).
  cbv zeta in Hc, Ha. rewrite Hc, Ha.
  set (loc := locate_terminator p line tokens).
  pose proof (split_at_terminator_leading p (fst loc) (snd loc) tokens) as Hv.
  cbv zeta in Hv.
  set (v := split_at_terminator p (fst loc) (snd loc) tokens) in *.
  destruct (truthy (snd loc) || truthy (v_command v)) eqn:K.
  - exact Hv.
  - apply orb_false_elim in K. destruct K as [Kt Kc].
    assert (Hvt : v_tokens v = tokens \/ v_tokens v = []).
    { subst v. unfold split_at_terminator. rewrite Kt.
      destruct (_command_and_args tokens) as [c a].
      destruct (str_in c (multiline_commands p)); cbn; auto. }
    destruct (pipe_stage_prefix home (v_tokens v)) as [r1 H1].
    destruct (output_stage_prefix home (snd (pipe_stage home (v_tokens v))))
      as [r2 H2].
    rewrite command_and_args_fst. intros Hne.
    destruct (snd (output_stage home (snd (pipe_stage home (v_tokens v)))))
      as [|c l]; [congruence|]. cbn [skipn].
    rewrite H2 in H1.
    destruct Hvt as [Hvt|Hvt]; rewrite Hvt in H1.
    + exists (r2 ++ r1)%list. rewrite H1. cbn.
      now rewrite <- !app_assoc.
    + discriminate H1.
Qed.

Lemma all_nonempty_app_l (l1 l2 : list string) :
  all_nonempty (l1 ++ l2) -> all_nonempty l1.
Proof. unfold all_nonempty. intros H. now apply Forall_app in H. Qed.

Lemma join_cons_nonempty (sep x : string) (l : list string) :
  x <> EmptyString -> join sep (x :: l) <> EmptyString.
Proof.
  intros Hx. unfold join. cbn [String.concat].
  destruct l; [assumption|]. destruct x; [congruence | discriminate].
Qed.

(** X1: for every statement [parse] returns, [command_and_args] is the
    command and the arguments of [arg_list] joined by single spaces, and
    the empty string when there is no command. *)
Theorem X1_command_and_args_of_parse (home : string -> string)
    (p : StatementParser) (line : string) (st : Statement) :
  parse home p line = OK st ->
  command_and_args st
  = (if truthy (command st) then join " " (command st :: arg_list st)
     else EmptyString).
Proof.
  unfold parse. destruct (tokenize p line) as [tokens|] eqn:Htok;
    [|discriminate].
  intros [= <-]. pose proof (tokenize_nonempty _ _ _ Htok) as Hne.
  destruct (assemble_str_value home p line tokens) as (_ & Hargs & _).
  unfold command_and_args. rewrite Hargs.
  destruct (truthy (command (assemble home p line tokens))) eqn:Hc;
    [|reflexivity].
  apply truthy_true in Hc.
  destruct (assemble_leading_tokens home p line tokens Hc) as [rest Hrest].
  rewrite Hrest in Hne. inversion Hne as [|? ? _ Hne']; subst.
  apply all_nonempty_app_l in Hne'.
  destruct (arg_list (assemble home p line tokens)) as [|a l]; [reflexivity|].
  inversion Hne' as [|? ? Ha _]; subst.
  pose proof (join_cons_nonempty " " a l Ha) as Hj.
  apply truthy_true in Hj. cbn [andb]. rewrite Hj. reflexivity.
Qed.

(** X1 at the line [say hello world ; tail]. *)
Lemma X1_command_and_args_of_parse_witness :
  command_and_args
    (assemble home_of_user default_parser "say hello world ; tail"
              ["say"; "hello"; "world"; ";"; "tail"])
  = "say hello world".
Proof.
  apply (X1_command_and_args_of_parse home_of_user default_parser
           "say hello world ; tail").
  reflexivity.
Defined.

(** X2: in a statement [parse] returns, the command followed by the
    argument list is a prefix of the tokens of the line, whenever there is
    a command. *)
Theorem X2_leading_tokens (home : string -> string) (p : StatementParser)
    (line : string) (st : Statement) :
  parse home p line = OK st ->
  command st <> EmptyString ->
  exists tokens rest,
    tokenize p line = OK tokens
    /\ tokens = (command st :: arg_list st ++ rest)%list.
Proof.
  unfold parse. destruct (tokenize p line) as [tokens|] eqn:Htok;
    [|discriminate].
  intros [= <-] Hc.
  destruct (assemble_leading_tokens home p line tokens Hc) as [rest H].
  now exists tokens, rest.
Qed.

(** X2 at the line [cmd a b > out]. *)
Lemma X2_leading_tokens_witness :
  exists tokens rest,
    tokenize default_parser "cmd a b > out" = OK tokens
    /\ tokens = ("cmd" :: ["a"; "b"] ++ rest)%list.
Proof.
  apply (X2_leading_tokens home_of_user default_parser "cmd a b > out"
           (assemble home_of_user default_parser "cmd a b > out"
                     ["cmd"; "a"; "b"; ">"; "out"])).
  - reflexivity.
  - discriminate.
Defined.

Lemma map_strip_quotes_unquoted (l : list string) :
  Forall (fun tok => utils.is_quoted tok = false) l ->
  map utils.strip_quotes l = l.
Proof.
  induction 1 as [|x l Hx _ IH]; [reflexivity|]. cbn [map].
  unfold utils.strip_quotes at 1. now rewrite Hx, IH.
Qed.

(** X3: when neither the command nor any argument of a statement [parse]
    returns is a quoted string, [argv] is the command followed by the
    argument list, and its elements joined by spaces are
    [command_and_args]. *)
Theorem X3_argv_unquoted (home : string -> string) (p : StatementParser)
    (line : string) (st : Statement) :
  parse home p line = OK st ->
  command st <> EmptyString ->
  Forall (fun tok => utils.is_quoted tok = false)
         (command st :: arg_list st) ->
  argv st = command st :: arg_list st
  /\ join " " (argv st) = command_and_args st.
Proof.
  intros Hp Hc Hq.
  assert (Hargv : argv st = command st :: arg_list st).
  { unfold argv. apply truthy_true in Hc. rewrite Hc.
    change (map utils.strip_quotes (command st :: arg_list st)
            = command st :: arg_list st).
    now apply map_strip_quotes_unquoted. }
  split; [exact Hargv|].
  unfold parse in Hp. destruct (tokenize p line) as [tokens|] eqn:Htok;
    [|discriminate].
  injection Hp as <-. pose proof (tokenize_nonempty _ _ _ Htok) as Hne.
  rewrite Hargv.
  destruct (assemble_str_value home p line tokens) as (_ & Hargs & _).
  unfold command_and_args. rewrite Hargs.
  apply truthy_true in Hc. rewrite Hc.
  apply truthy_true in Hc.
  destruct (assemble_leading_tokens home p line tokens Hc) as [rest Hrest].
  rewrite Hrest in Hne. inversion Hne as [|? ? _ Hne']; subst.
  apply all_nonempty_app_l in Hne'.
  destruct (arg_list (assemble home p line tokens)) as [|a l]; [reflexivity|].
  inversion Hne' as [|? ? Ha _]; subst.
  pose proof (join_cons_nonempty " " a l Ha) as Hj.
  apply truthy_true in Hj. cbn [andb]. rewrite Hj. reflexivity.
Qed.

(** X3 at the line [cp a b]. *)
Lemma X3_argv_unquoted_witness :
  argv (assemble home_of_user default_parser "cp a b" ["cp"; "a"; "b"])
  = ["cp"; "a"; "b"]
  /\ join " " (argv (assemble home_of_user default_parser "cp a b"
                              ["cp"; "a"; "b"]))
     = "cp a b".
Proof.
  apply (X3_argv_unquoted home_of_user default_parser "cp a b").
  - reflexivity.
  - discriminate.
  - repeat constructor.
Defined.

(** ** Invariants of the fields *)

Lemma str_in_In (x : string) (l : list string) :
  str_in x l = true <-> In x l.
Proof.
  unfold str_in. rewrite existsb_exists. split.
  - intros (y & Hy & E). apply String.eqb_eq in E. now subst.
  - intros H. exists x. split; [assumption | apply String.eqb_refl].
Qed.

Lemma test_terminators_in (terms : list string) (tok t : string) :
  test_terminators terms tok = Some t -> In t terms.
Proof.
  intros H. apply test_terminators_first in H.
  destruct H as (l1 & l2 & -> & _). apply in_or_app. right. now left.
Qed.

Lemma locate_terminator_domain (p : StatementParser) (line : string)
    (tokens : list string) :
  let t := snd (locate_terminator p line tokens) in
  t = EmptyString
  \/ (t = constants.LINE_FEED /\ last_char line = constants.LINE_FEED)
  \/ In t (terminators p).
Proof.
  unfold locate_terminator.
  destruct (find_terminator (terminators p) 0 tokens) as [[pos t]|] eqn:E.
  - right. right. cbn. apply find_terminator_first in E.
    destruct E as (b & tok & a & _ & _ & Ht & _).
    eapply test_terminators_in, Ht.
  - cbn. destruct (String.eqb_spec (last_char line) constants.LINE_FEED);
      auto.
Qed.

(** X4: the terminator of a statement [parse] returns is empty, or the
    line feed a line ends with, or one of the configured terminators; and
    a statement without terminator has no suffix. *)
Theorem X4_terminator_and_suffix (home : string -> string)
    (p : StatementParser) (line : string) (st : Statement) :
  parse home p line = OK st ->
  (terminator st = EmptyString
   \/ (terminator st = constants.LINE_FEED
       /\ last_char line = constants.LINE_FEED)
   \/ In (terminator st) (terminators p))
  /\ (terminator st = EmptyString -> suffix st = EmptyString).
Proof.
  unfold parse. destruct (tokenize p line) as [tokens|]; [|discriminate].
  intros [= <-].
  destruct (assemble_fields home p line tokens) as (Ht & Hs & _).
  cbv zeta in Ht, Hs. rewrite Ht, Hs. split.
  - apply locate_terminator_domain.
  - intros ->. reflexivity.
Qed.

(** X4 at the line [cmd a ; rest]. *)
Lemma X4_terminator_and_suffix_witness :
  (";" = EmptyString
   \/ (";" = constants.LINE_FEED
       /\ last_char "cmd a ; rest" = constants.LINE_FEED)
   \/ In ";" (terminators default_parser))
  /\ (";" = EmptyString -> "rest" = EmptyString).
Proof.
  apply (X4_terminator_and_suffix home_of_user default_parser "cmd a ; rest"
           (assemble home_of_user default_parser "cmd a ; rest"
                     ["cmd"; "a"; ";"; "rest"])).
  reflexivity.
Defined.

Lemma redirect_stage_domain (home : string -> string) (op : string)
    (v : string * string * list string) :
  op <> EmptyString ->
  (fst (fst v) = EmptyString -> snd (fst v) = EmptyString) ->
  let v' := redirect_stage home op v in
  (fst (fst v') = op \/ fst (fst v') = fst (fst v))
  /\ (fst (fst v') = EmptyString -> snd (fst v') = EmptyString).
Proof.
  destruct v as [[o ot] toks]. cbn. intros Hop Hv.
  destruct (list_index op toks); cbn; [|auto].
  split; [now left | congruence].
Qed.

(** X5: the [output] field of a statement [parse] returns is empty or one
    of the two redirection operators, and a target is recorded only with
    an operator. *)
Theorem X5_output_fields (home : string -> string) (p : StatementParser)
    (line : string) (st : Statement) :
  parse home p line = OK st ->
  (output st = EmptyString
   \/ output st = constants.REDIRECTION_OUTPUT
   \/ output st = constants.REDIRECTION_APPEND)
  /\ (output st = EmptyString -> output_to st = EmptyString).
Proof.
  unfold parse. destruct (tokenize p line) as [tokens|]; [|discriminate].
  intros [= <-].
  destruct (assemble_pipe_output home p line tokens) as (_ & Ho & Hot).
  cbv zeta in Ho, Hot. rewrite Ho, Hot.
  set (toks := snd (pipe_stage home _)). unfold output_stage.
  pose proof (redirect_stage_domain home constants.REDIRECTION_OUTPUT
                (EmptyString, EmptyString, toks) ltac:(discriminate)
                ltac:(reflexivity)) as [H1 H1'].
  set (v1 := redirect_stage home constants.REDIRECTION_OUTPUT _) in *.
  pose proof (redirect_stage_domain home constants.REDIRECTION_APPEND v1
                ltac:(discriminate) H1') as [H2 H2'].
  cbn [fst] in H1. split; [|exact H2'].
  destruct H2 as [-> | ->]; [auto|]. destruct H1 as [-> | ->]; auto.
Qed.

(** X5 at the line [cmd > out]. *)
Lemma X5_output_fields_witness :
  (">" = EmptyString
   \/ ">" = constants.REDIRECTION_OUTPUT
   \/ ">" = constants.REDIRECTION_APPEND)
  /\ (">" = EmptyString -> "out" = EmptyString).
Proof.
  apply (X5_output_fields home_of_user default_parser "cmd > out"
           (assemble home_of_user default_parser "cmd > out"
                     ["cmd"; ">"; "out"])).
  reflexivity.
Defined.

(** X6: in a statement built by [parse] or by [parse_command_only], the
    multiline command is empty, or it is the command and the command is
    one of the configured multiline commands. *)
Theorem X6_multiline_command (home : string -> string)
    (p : StatementParser) (line : string) :
  (forall st, parse home p line = OK st ->
     multiline_command st = EmptyString
     \/ (multiline_command st = command st
         /\ In (command st) (multiline_commands p)))
  /\ (multiline_command (parse_command_only p line) = EmptyString
      \/ (multiline_command (parse_command_only p line)
          = command (parse_command_only p line)
          /\ In (command (parse_command_only p line))
                (multiline_commands p))).
Proof.
  split.
  - intros st. unfold parse.
    destruct (tokenize p line) as [tokens|]; [|discriminate].
    intros [= <-].
    destruct (assemble_fields home p line tokens) as (_ & _ & _ & _ & _ & H).
    cbv zeta in H. rewrite H.
    destruct (str_in _ (multiline_commands p)) eqn:E; [|now left].
    right. split; [reflexivity | now apply str_in_In].
  - unfold parse_command_only.
    destruct (command_pattern_search p (_expand p line)) as [m|].
    + destruct (_ || _); cbn;
        (destruct (str_in (group1 m) (multiline_commands p)) eqn:E;
         [right; split; [reflexivity | now apply str_in_In] | now left]).
    + cbn. destruct (str_in EmptyString (multiline_commands p)) eqn:E;
        [right; split; [reflexivity | now apply str_in_In] | now left].
Qed.

(** ** The redirection *)

Lemma redirect_stage_found (home : string -> string) (op o ot : string)
    (before after : list string) :
  ~ In op before ->
  redirect_stage home op (o, ot, (before ++ op :: after)%list)
  = (op,
     match after with
     | [] => ot
     | target :: _ => expanduser home (utils.strip_quotes target)
     end,
     before).
Proof.
  intros H. cbn [redirect_stage]. rewrite list_index_app by assumption.
  rewrite firstn_app_exact. rewrite length_app. cbn [List.length].
  destruct after as [|target rest]; cbn [List.length].
  - destruct (Nat.ltb_spec (List.length before + 1)
                (List.length before + 1)); [lia | reflexivity].
  - destruct (Nat.ltb_spec (List.length before + 1)
                (List.length before + S (S (List.length rest))));
      [|lia].
    rewrite app_nth2 by lia.
    replace (List.length before + 1 - List.length before) with 1 by lia.
    reflexivity.
Qed.

Lemma list_index_skip (x : string) (pre suf : list string) :
  ~ In x pre ->
  list_index x (pre ++ suf)
  = option_map (Nat.add (List.length pre)) (list_index x suf).
Proof.
  induction pre as [|y pre IH]; cbn; intros H.
  - now destruct (list_index x suf).
  - destruct (String.eqb_spec y x) as [->|_]; [tauto|].
    rewrite IH by tauto. now destruct (list_index x suf).
Qed.

(** A block whose operator is not among the first tokens keeps them. *)
Lemma redirect_stage_after (home : string -> string) (op o ot : string)
    (pre rest : list string) :
  ~ In op pre ->
  exists o' ot' rest',
    redirect_stage home op (o, ot, (pre ++ rest)%list)
    = (o', ot', (pre ++ rest')%list).
Proof.
  intros H. cbn [redirect_stage]. rewrite (list_index_skip _ pre rest H).
  destruct (list_index op rest) as [i|]; cbn [option_map].
  - rewrite firstn_app.
    replace (List.length pre + i - List.length pre) with i by lia.
    rewrite firstn_all2 by lia. eauto.
  - eauto.
Qed.

(** The two blocks on tokens whose first redirection operator is [op]. *)
Lemma output_stage_first (home : string -> string) (op : string)
    (before after : list string) :
  op = constants.REDIRECTION_OUTPUT \/ op = constants.REDIRECTION_APPEND ->
  ~ In constants.REDIRECTION_OUTPUT before ->
  ~ In constants.REDIRECTION_APPEND before ->
  (forall rest, op = constants.REDIRECTION_APPEND ->
                after <> constants.REDIRECTION_OUTPUT :: rest) ->
  output_stage home (before ++ op :: after)
  = (op,
     match after with
     | [] => EmptyString
     | target :: _ => expanduser home (utils.strip_quotes target)
     end,
     before).
Proof.
  intros [-> | ->] Ho Ha Hnext; unfold output_stage.
  - rewrite (redirect_stage_found home constants.REDIRECTION_OUTPUT)
      by assumption.
    now rewrite redirect_stage_none.
  - destruct after as [|target rest].
    + rewrite (redirect_stage_none home constants.REDIRECTION_OUTPUT).
      * now rewrite redirect_stage_found.
      * cbn [snd]. intros H. apply in_app_or in H.
        destruct H as [H|[H|[]]]; [tauto | discriminate H].
    + assert (Ht : target <> constants.REDIRECTION_OUTPUT)
        by (intros ->; now apply (Hnext rest)).
      set (pre := (before ++ [constants.REDIRECTION_APPEND; target])%list).
      replace (before ++ constants.REDIRECTION_APPEND :: target :: rest)%list
        with (pre ++ rest)%list
        by (subst pre; now rewrite <- app_assoc).
      assert (Hpre : ~ In constants.REDIRECTION_OUTPUT pre).
      { subst pre. intros H. apply in_app_or in H.
        destruct H as [H|[H|[H|[]]]]; [tauto | discriminate H | congruence]. }
      destruct (redirect_stage_after home constants.REDIRECTION_OUTPUT
                  EmptyString EmptyString pre rest Hpre)
        as (o' & ot' & rest' & ->).
      subst pre. rewrite <- app_assoc. cbn [app].
      now rewrite redirect_stage_found.
Qed.

(** X7: the redirection [parse] records is that of the first redirection
    operator among the tokens it looks at, [>] or [>>]: [output] is that
    operator and [output_to] is the token after it, unquoted and
    home-expanded, or empty when the operator is the last token.  (An
    append operator directly followed by [>] is left out.) *)
Theorem X7_first_redirection_wins (home : string -> string)
    (p : StatementParser) (line : string) (tokens before after : list string)
    (op : string) :
  tokenize p line = OK tokens ->
  remaining_tokens p line tokens = (before ++ op :: after)%list ->
  op = constants.REDIRECTION_OUTPUT \/ op = constants.REDIRECTION_APPEND ->
  ~ In constants.REDIRECTION_PIPE (before ++ op :: after) ->
  ~ In constants.REDIRECTION_OUTPUT before ->
  ~ In constants.REDIRECTION_APPEND before ->
  (forall rest, op = constants.REDIRECTION_APPEND ->
                after <> constants.REDIRECTION_OUTPUT :: rest) ->
  exists st,
    parse home p line = OK st
    /\ output st = op
    /\ output_to st
       = match after with
         | [] => EmptyString
         | target :: _ => expanduser home (utils.strip_quotes target)
         end
    /\ pipe_to st = [].
Proof.
  intros Htok Hrest Hop Hpipe Ho Ha Hnext.
  unfold parse. rewrite Htok. eexists. split; [reflexivity|].
  destruct (assemble_pipe_output home p line tokens) as (Hp & Hout & Hto).
  cbv zeta in Hp, Hout, Hto. rewrite Hrest in Hp, Hout, Hto.
  unfold pipe_stage in Hp, Hout, Hto.
  rewrite (list_index_none _ _ Hpipe) in Hp, Hout, Hto.
  cbn [fst snd] in Hp, Hout, Hto.
  rewrite (output_stage_first home op before after Hop Ho Ha Hnext)
    in Hout, Hto.
  auto.
Qed.

(** X7 at the line [cmd >> a > b], where the append operator comes
    first. *)
Lemma X7_first_redirection_wins_witness :
  exists st,
    parse home_of_user default_parser "cmd >> a > b" = OK st
    /\ output st = ">>"
    /\ output_to st = "a"
    /\ pipe_to st = [].
Proof.
  apply (X7_first_redirection_wins home_of_user default_parser
           "cmd >> a > b" ["cmd"; ">>"; "a"; ">"; "b"] ["cmd"] ["a"; ">"; "b"]
           ">>").
  - reflexivity.
  - reflexivity.
  - now right.
  - intros H. repeat (destruct H as [H|H]; [discriminate H|]). exact H.
  - intros [H|[]]. discriminate H.
  - intros [H|[]]. discriminate H.
  - intros rest _. discriminate.
Defined.

(** ** Terminated and blank lines *)

Lemma find_terminator_found (terms : list string) (k : nat)
    (before : list string) (tok : string) (after : list string) (t : string) :
  (forall tok' t', In tok' before -> In t' terms ->
                   startswith tok' t' = false) ->
  test_terminators terms tok = Some t ->
  find_terminator terms k (before ++ tok :: after)
  = Some (k + List.length before, t).
Proof.
  revert k. induction before as [|b before IH]; intros k Hb Ht; cbn.
  - rewrite Ht. now rewrite Nat.add_0_r.
  - rewrite test_terminators_none
      by (intros t' Ht'; apply Hb; [now left | exact Ht']).
    rewrite IH; [f_equal; f_equal; lia | | exact Ht].
    intros tok' t' Hin. apply Hb. now right.
Qed.

Lemma slice_app_exact (before : list string) (x : string)
    (after : list string) :
  slice 1 (List.length before) (before ++ x :: after) = skipn 1 before.
Proof.
  rewrite <- skipn_one_firstn. now rewrite firstn_app_exact.
Qed.

(** X8: when the first token that starts with a configured terminator
    carries the terminator [t] (not empty, not the line feed), the
    statement is cut at that token: the command and the arguments are the
    tokens before it, the whole token is dropped even when it is longer
    than [t], and the tokens after it are what the searches for a pipe
    and a redirection look at; without any such operator among them they
    are the suffix, joined by spaces. *)
Theorem X8_statement_cut_at_terminator (home : string -> string)
    (p : StatementParser) (line : string) (before : list string)
    (tok : string) (after : list string) (t : string) :
  tokenize p line = OK (before ++ tok :: after)%list ->
  (forall tok' t', In tok' before -> In t' (terminators p) ->
                   startswith tok' t' = false) ->
  test_terminators (terminators p) tok = Some t ->
  t <> EmptyString ->
  t <> constants.LINE_FEED ->
  exists st,
    parse home p line = OK st
    /\ terminator st = t
    /\ (command st, args st) = _command_and_args before
    /\ arg_list st = skipn 1 before
    /\ remaining_tokens p line (before ++ tok :: after) = after
    /\ (~ In constants.REDIRECTION_PIPE after ->
        ~ In constants.REDIRECTION_OUTPUT after ->
        ~ In constants.REDIRECTION_APPEND after ->
        suffix st = join " " after
        /\ pipe_to st = []
        /\ output st = EmptyString).
Proof.
  intros Htok Hb Ht Hne Hlf.
  unfold parse. rewrite Htok. eexists. split; [reflexivity|].
  assert (Hloc : locate_terminator p line (before ++ tok :: after)
                 = (List.length before, t)).
  { unfold locate_terminator.
    now rewrite (find_terminator_found _ 0 before tok after t Hb Ht). }
  assert (Hv : split_at_terminator p (List.length before) t
                 (before ++ tok :: after)
               = {| v_command := fst (_command_and_args before);
                    v_args := snd (_command_and_args before);
                    v_arg_list := skipn 1 before;
                    v_tokens := after |}).
  { unfold split_at_terminator. apply truthy_true in Hne. rewrite Hne.
    destruct (String.eqb_spec t constants.LINE_FEED); [contradiction|].
    rewrite firstn_app_exact, slice_app_exact, skipn_app_exact.
    now destruct (_command_and_args before). }
  assert (Hrem : remaining_tokens p line (before ++ tok :: after) = after).
  { unfold remaining_tokens. rewrite Hloc. cbn [fst snd]. now rewrite Hv. }
  destruct (assemble_fields home p line (before ++ tok :: after))
    as (Hterm & Hsuf & Hc & Ha & Hal & _).
  destruct (assemble_pipe_output home p line (before ++ tok :: after))
    as (Hp & Ho & _).
  cbv zeta in Hterm, Hsuf, Hc, Ha, Hal, Hp, Ho.
  rewrite Hrem in Hp, Ho.
  rewrite Hloc in Hterm, Hsuf, Hc, Ha, Hal. cbn [fst snd] in *.
  rewrite Hv in Hsuf, Hc, Ha, Hal. cbn [v_command v_args v_arg_list v_tokens] in *.
  apply truthy_true in Hne. rewrite Hne in Hsuf, Hc, Ha, Hal.
  cbn [orb] in Hc, Ha, Hal.
  repeat split; try assumption.
  - rewrite Hc, Ha. now destruct (_command_and_args before).
  - rewrite Hsuf. unfold pipe_stage.
    rewrite (list_index_none _ _ H). cbn [snd].
    now rewrite output_stage_none.
  - rewrite Hp. unfold pipe_stage. now rewrite (list_index_none _ _ H).
  - rewrite Ho. unfold pipe_stage.
    rewrite (list_index_none _ _ H). cbn [snd].
    now rewrite output_stage_none.
Qed.

(** X8 at the line [say hi;; more words], whose terminator token is
    [;;]. *)
Lemma X8_statement_cut_at_terminator_witness :
  exists st,
    parse home_of_user default_parser "say hi;; more words" = OK st
    /\ terminator st = ";"
    /\ (command st, args st) = ("say", "hi")
    /\ arg_list st = ["hi"]
    /\ remaining_tokens default_parser "say hi;; more words"
         ["say"; "hi"; ";;"; "more"; "words"]
       = ["more"; "words"]
    /\ (~ In constants.REDIRECTION_PIPE ["more"; "words"] ->
        ~ In constants.REDIRECTION_OUTPUT ["more"; "words"] ->
        ~ In constants.REDIRECTION_APPEND ["more"; "words"] ->
        suffix st = "more words"
        /\ pipe_to st = []
        /\ output st = EmptyString).
Proof.
  apply (X8_statement_cut_at_terminator home_of_user default_parser
           "say hi;; more words" ["say"; "hi"] ";;" ["more"; "words"] ";").
  - reflexivity.
  - intros tok' t' [<-|[<-|[]]] [<-|[]]; reflexivity.
  - reflexivity.
  - discriminate.
  - discriminate.
Defined.

(** X9: a line the lexer finds no token in (an empty line, white space, a
    comment) gives the statement whose fields are all empty but [raw],
    and but [terminator] when the line ends with a line feed. *)
Theorem X9_blank_line (home : string -> string) (p : StatementParser)
    (line : string) :
  tokenize p line = OK [] ->
  parse home p line
  = OK (Statement_new EmptyString line EmptyString [] EmptyString
          (if (last_char line =? constants.LINE_FEED)%string
           then constants.LINE_FEED else EmptyString)
          EmptyString [] EmptyString EmptyString).
Proof.
  intros Htok. unfold parse. rewrite Htok. f_equal.
  unfold assemble, locate_terminator. cbn [find_terminator].
  destruct (str_in EmptyString (multiline_commands p)) eqn:E;
    destruct (last_char line =? constants.LINE_FEED)%string;
    cbn -[str_in]; rewrite ?E; cbn -[str_in]; rewrite ?E; reflexivity.
Qed.

(** X9 at a line of white space and a comment, ended by a line feed. *)
Lemma X9_blank_line_witness :
  parse home_of_user default_parser ("   # nothing here" ++ str1 LF)
  = OK (Statement_new EmptyString ("   # nothing here" ++ str1 LF)
          EmptyString [] EmptyString constants.LINE_FEED
          EmptyString [] EmptyString EmptyString).
Proof.
  apply (X9_blank_line home_of_user default_parser
           ("   # nothing here" ++ str1 LF)).
  reflexivity.
Defined.

(** ** What [_split_on_punctuation] does to the tokens *)

Lemma all_chars_app (f : ascii -> bool) (s t : string) :
  all_chars f (s ++ t) = all_chars f s && all_chars f t.
Proof.
  induction s as [|c s IH]; cbn; [reflexivity|].
  now rewrite IH, andb_assoc.
Qed.

(** What an inner loop takes passes the test, what it leaves starts with
    a character that fails it, and nothing is lost. *)
Lemma take_run_spec (keep : ascii -> bool) (s : string) :
  s = fst (take_run keep s) ++ snd (take_run keep s)
  /\ all_chars keep (fst (take_run keep s)) = true.
Proof.
  induction s as [|c s [IH1 IH2]]; cbn; [split; reflexivity|].
  destruct (keep c) eqn:E; [|split; reflexivity].
  destruct (take_run keep s) as [t r]. cbn in *.
  split; [now rewrite <- IH1 | now rewrite E].
Qed.

Lemma take_run_all (keep : ascii -> bool) (s : string) :
  all_chars keep s = true -> take_run keep s = (s, EmptyString).
Proof.
  induction s as [|c s IH]; cbn; [reflexivity|].
  intros H. apply andb_prop in H. destruct H as [-> H].
  now rewrite IH.
Qed.

Lemma string_concat_cons (x : string) (l : list string) :
  String.concat EmptyString (x :: l) = x ++ String.concat EmptyString l.
Proof.
  cbn [String.concat]. destruct l; [|reflexivity].
  cbn. clear. induction x; cbn; [reflexivity | now f_equal].
Qed.

Lemma string_concat_app (l1 l2 : list string) :
  String.concat EmptyString (l1 ++ l2)
  = String.concat EmptyString l1 ++ String.concat EmptyString l2.
Proof.
  induction l1 as [|x l1 IH]; [reflexivity|].
  cbn [app]. rewrite !string_concat_cons, IH.
  clear. induction x; cbn; [reflexivity | now f_equal].
Qed.

(** X10: [_split_on_punctuation] neither drops nor adds a character: its
    tokens put end to end are the tokens it was given put end to end. *)
Theorem X10_split_keeps_characters (p : StatementParser)
    (tokens : list string) :
  String.concat EmptyString (_split_on_punctuation p tokens)
  = String.concat EmptyString tokens.
Proof.
  unfold _split_on_punctuation.
  induction tokens as [|tok tokens IH]; [reflexivity|].
  cbn [flat_map]. rewrite string_concat_app, IH, string_concat_cons.
  f_equal. destruct (_ || _).
  - rewrite string_concat_cons. cbn. clear.
    induction tok; cbn; [reflexivity | now f_equal].
  - apply split_token_concat. lia.
Qed.

(** The pieces of a token: runs of characters that are not punctuation
    and runs of one punctuation character. *)
Lemma split_token_runs (punct : list string) (fuel : nat) (s : string) :
  Forall (fun t =>
            all_chars (fun c => negb (str_in (str1 c) punct)) t = true
            \/ exists c, str_in (str1 c) punct = true
                         /\ all_chars (fun c' => (c' =? c)%char) t = true)
         (split_token fuel punct s).
Proof.
  revert s. induction fuel as [|fuel IH]; intros s; [constructor|].
  destruct s as [|c s]; [constructor|]. cbn [split_token].
  destruct (negb (str_in (str1 c) punct)) eqn:E.
  - pose proof (take_run_spec
                  (fun c' => negb (str_in (str1 c') punct)) (String c s))
      as [_ H].
    destruct (take_run _ (String c s)) as [t r]. cbn [fst] in H.
    constructor; [now left | apply IH].
  - pose proof (take_run_spec (fun c' => (c' =? c)%char) (String c s))
      as [_ H].
    destruct (take_run _ (String c s)) as [t r]. cbn [fst] in H.
    constructor; [|apply IH].
    right. exists c. split; [|assumption].
    now apply negb_false_iff in E.
Qed.

Lemma split_on_punctuation_settled (p : StatementParser)
    (tokens : list string) :
  Forall (settled_token p) (_split_on_punctuation p tokens).
Proof.
  unfold _split_on_punctuation.
  induction tokens as [|tok tokens IH]; [constructor|].
  cbn [flat_map]. apply Forall_app. split; [|assumption].
  destruct (_ || _) eqn:E.
  - constructor; [|constructor]. left. exact E.
  - eapply Forall_impl; [|apply split_token_runs].
    intros t [H|H]; [right; left; exact H | right; right; exact H].
Qed.

(** X11: every token [_split_on_punctuation] returns is a token it did
    not touch (one character at most, or a quote in front), or a run of
    characters none of which is punctuation, or a run of one and the same
    punctuation character. *)
Theorem X11_split_tokens_are_runs (p : StatementParser)
    (tokens : list string) :
  Forall (settled_token p) (_split_on_punctuation p tokens).
Proof. apply split_on_punctuation_settled. Qed.

Lemma split_token_empty (fuel : nat) (punct : list string) :
  split_token fuel punct EmptyString = [].
Proof. now destruct fuel. Qed.

Lemma settled_token_stable (p : StatementParser) (tok : string) :
  settled_token p tok -> _split_on_punctuation p [tok] = [tok].
Proof.
  unfold settled_token, _split_on_punctuation, starts_with_quote,
    in_punctuation.
  cbn [flat_map]. rewrite app_nil_r.
  destruct ((String.length tok <=? 1)%nat
            || str_in (substring 0 1 tok) constants.QUOTES) eqn:E;
    [reflexivity|].
  intros [H|[H|(c & Hc & H)]]; [discriminate H | |].
  - destruct tok as [|c0 tok]; [discriminate E|].
    cbn [String.length split_token].
    pose proof H as H'. cbn [all_chars] in H'. apply andb_prop in H'.
    destruct H' as [H0 _].
    rewrite H0. rewrite (take_run_all _ _ H).
    now rewrite split_token_empty.
  - destruct tok as [|c0 tok]; [discriminate E|].
    cbn [String.length split_token].
    pose proof H as H'. cbn [all_chars] in H'. apply andb_prop in H'.
    destruct H' as [H0 _]. apply Ascii.eqb_eq in H0. subst c0.
    rewrite Hc. cbn [negb].
    rewrite (take_run_all _ _ H).
    now rewrite split_token_empty.
Qed.

(** X12: [_split_on_punctuation] is idempotent: the tokens it returns are
    not split any further. *)
Theorem X12_split_idempotent (p : StatementParser) (tokens : list string) :
  _split_on_punctuation p (_split_on_punctuation p tokens)
  = _split_on_punctuation p tokens.
Proof.
  pose proof (split_on_punctuation_settled p tokens) as H.
  induction H as [|tok l Htok _ IH]; [reflexivity|].
  change (tok :: l) with ([tok] ++ l)%list at 1.
  unfold _split_on_punctuation at 1. rewrite flat_map_app.
  fold (_split_on_punctuation p [tok]). fold (_split_on_punctuation p l).
  now rewrite IH, settled_token_stable.
Qed.

(** ** The tokens of [tokenize] *)

Lemma starts_with_quote_cons (a : ascii) (s : string) :
  starts_with_quote (String a s) = str_in (str1 a) constants.QUOTES.
Proof. unfold starts_with_quote. cbn [substring]. now destruct s. Qed.

Lemma starts_with_quote_append (s t : string) :
  starts_with_quote s = true -> starts_with_quote (s ++ t) = true.
Proof.
  destruct s as [|a s]; [discriminate|].
  cbn [append]. now rewrite !starts_with_quote_cons.
Qed.

(** A token of the lexer starts with a quote or holds no white space. *)
Lemma read_tokens_shape (s : string) :
  forall state token in_readline l,
    (state = in_word -> no_whitespace token = true) ->
    (forall q, state = in_quotes q -> starts_with_quote token = true) ->
    read_tokens state token in_readline s = OK l ->
    Forall (fun tok => starts_with_quote tok = true
                       \/ no_whitespace tok = true) l.
Proof.
  induction s as [|c s IH]; intros state token rl l Hw Hq H.
  - destruct state; cbn in H; try discriminate; injection H as <-.
    + constructor.
    + constructor; [right; now apply Hw | constructor].
  - cbn [read_tokens] in H. destruct rl; [now apply IH in H|].
    destruct state.
    + destruct (shlex_whitespace c) eqn:Ews;
        [apply IH in H; auto; discriminate|].
      destruct (shlex_commenters c);
        [apply IH in H; auto; discriminate|].
      destruct (shlex_quotes c) eqn:Eq; apply IH in H; auto;
        try discriminate.
      * intros q _. unfold str1. rewrite starts_with_quote_cons.
        unfold shlex_quotes in Eq. apply orb_prop in Eq.
        destruct Eq as [Eq|Eq]; apply Ascii.eqb_eq in Eq; subst c;
          reflexivity.
      * intros _. unfold no_whitespace, str1. cbn [all_chars].
        now rewrite Ews.
    + destruct (shlex_whitespace c) eqn:Ews.
      * apply emit_ok in H. destruct H as (l' & H & ->).
        constructor; [right; now apply Hw|].
        apply IH in H; auto; discriminate.
      * destruct (shlex_commenters c); apply IH in H; auto; try discriminate.
        intros _. unfold no_whitespace. rewrite all_chars_app.
        fold (no_whitespace token). rewrite Hw by reflexivity.
        unfold str1. cbn [all_chars andb]. now rewrite Ews.
    + destruct (c =? q)%char.
      * apply emit_ok in H. destruct H as (l' & H & ->).
        constructor;
          [left; apply starts_with_quote_append; now apply (Hq q)|].
        apply IH in H; auto; discriminate.
      * apply IH in H; auto; [discriminate|].
        intros q' _. apply starts_with_quote_append. now apply (Hq q).
Qed.

Lemma split_token_all_chars (f : ascii -> bool) (punct : list string)
    (fuel : nat) (s : string) :
  all_chars f s = true ->
  Forall (fun t => all_chars f t = true) (split_token fuel punct s).
Proof.
  revert s. induction fuel as [|fuel IH]; intros s H; [constructor|].
  destruct s as [|c s]; [constructor|]. cbn [split_token].
  set (run := if negb (str_in (str1 c) punct)
              then take_run (fun c' => negb (str_in (str1 c') punct))
                            (String c s)
              else take_run (fun c' => (c' =? c)%char) (String c s)).
  assert (Hrun : String c s = fst run ++ snd run).
  { subst run. destruct (negb _); apply take_run_spec. }
  destruct run as [t r]. cbn [fst snd] in Hrun.
  rewrite Hrun, all_chars_app in H. apply andb_prop in H.
  destruct H as [Ht Hr]. constructor; [assumption | now apply IH].
Qed.

(** X13: every token of [tokenize] has a character, and a token that does
    not start with a quote holds none of the four characters the lexer
    splits on: space, tab, carriage return and line feed. *)
Theorem X13_tokens_of_tokenize (p : StatementParser) (line : string)
    (tokens : list string) :
  tokenize p line = OK tokens ->
  Forall (fun tok => tok <> EmptyString
                     /\ (starts_with_quote tok = true
                         \/ no_whitespace tok = true)) tokens.
Proof.
  intros Htok. pose proof (tokenize_nonempty _ _ _ Htok) as Hne.
  unfold tokenize, shlex_list in Htok.
  destruct (read_tokens _ _ _ _) as [l|] eqn:E; [|discriminate].
  injection Htok as <-.
  apply read_tokens_shape in E; [|discriminate|discriminate].
  assert (Hshape : Forall (fun tok => starts_with_quote tok = true
                                      \/ no_whitespace tok = true)
                          (_split_on_punctuation p l)).
  { clear Hne. unfold _split_on_punctuation.
    induction E as [|tok l Htok _ IH]; [constructor|].
    cbn [flat_map]. apply Forall_app. split; [|assumption].
    destruct (_ || _) eqn:C; [constructor; [assumption | constructor]|].
    apply orb_false_elim in C. destruct C as [_ C].
    fold (starts_with_quote tok) in C.
    destruct Htok as [Htok|Htok]; [congruence|].
    eapply Forall_impl; [|apply split_token_all_chars, Htok].
    intros t Ht. now right. }
  unfold all_nonempty in Hne. rewrite Forall_forall in *.
  intros tok Hin. split; [now apply Hne | now apply Hshape].
Qed.

(** X13 at a line with a quoted argument that holds a space. *)
Lemma X13_tokens_of_tokenize_witness :
  Forall (fun tok => tok <> EmptyString
                     /\ (starts_with_quote tok = true
                         \/ no_whitespace tok = true))
         ["say"; str1 SQ ++ "a b" ++ str1 SQ; ";"; "x"].
Proof.
  apply (X13_tokens_of_tokenize default_parser
           ("say  " ++ str1 SQ ++ "a b" ++ str1 SQ ++ ";x")).
  reflexivity.
Defined.

Lemma quote_left_open_no_quote (s : string) :
  forall word comment,
    no_quote_char s = true -> quote_left_open None word comment s = false.
Proof.
  unfold no_quote_char.
  induction s as [|c s IH]; intros word comment H; [reflexivity|].
  cbn [all_chars] in H. apply andb_prop in H. destruct H as [Hc H].
  cbn [quote_left_open]. apply negb_true_iff in Hc.
  unfold shlex_quotes in Hc. rewrite Hc, andb_false_r.
  destruct comment; [now apply IH|].
  destruct (shlex_whitespace c); [now apply IH|].
  destruct (c =? "#")%char; now apply IH.
Qed.

Lemma re_sub_comments_all_chars (f : ascii -> bool) (fuel : nat) :
  forall line,
    all_chars f line = true -> all_chars f (re_sub_comments fuel line) = true.
Proof.
  induction fuel as [|fuel IH]; intros line H; [exact H|].
  cbn [re_sub_comments].
  destruct (comment_pattern_match line) as [[m r]|] eqn:E.
  - apply comment_pattern_match_split in E. destruct E as [-> _].
    rewrite all_chars_app in H. apply andb_prop in H. destruct H as [Hm Hr].
    rewrite all_chars_app, (IH r Hr), andb_true_r.
    unfold _comment_replacer. now destruct (startswith m "/").
  - destruct line as [|c line]; [reflexivity|].
    cbn [all_chars] in *. apply andb_prop in H. destruct H as [-> H].
    now rewrite IH.
Qed.

(** X14: [tokenize] and [parse] raise nothing when the line the lexer is
    given holds no quote character; for a parser without aliases and
    shortcuts that is every line without a quote character. *)
Theorem X14_no_quote_no_error (home : string -> string)
    (p : StatementParser) (line : string) :
  (no_quote_char (lexer_input p line) = true ->
   exists tokens,
     tokenize p line = OK tokens
     /\ parse home p line = OK (assemble home p line tokens))
  /\ (aliases p = [] -> shortcuts p = [] -> no_quote_char line = true ->
      no_quote_char (lexer_input p line) = true).
Proof.
  split.
  - intros H. pose proof (tokenize_error p line) as E.
    unfold unclosed_quote in E.
    rewrite (quote_left_open_no_quote _ false false H) in E.
    unfold parse. destruct (tokenize p line) as [tokens|]; [|discriminate E].
    now exists tokens.
  - intros Ha Hs H. unfold lexer_input, _expand, expand_aliases, expand_init,
      alias_keys.
    rewrite Ha, Hs. cbn. unfold strip_comments, no_quote_char.
    now apply re_sub_comments_all_chars.
Qed.

(** X14 at the line [it is > fine | ok ;]. *)
Lemma X14_no_quote_no_error_witness :
  exists tokens,
    tokenize default_parser "it is > fine | ok ;" = OK tokens
    /\ parse home_of_user default_parser "it is > fine | ok ;"
       = OK (assemble home_of_user default_parser "it is > fine | ok ;"
                      tokens).
Proof.
  apply (proj1 (X14_no_quote_no_error home_of_user default_parser
                  "it is > fine | ok ;")).
  reflexivity.
Defined.

(** ** What [_expand] changes *)

(** One run of the [for] loop, with the line it leaves. *)
Lemma for_cur_alias_result (p : StatementParser) (todo : list string) :
  forall st,
    todo <> [] ->
    let st' := for_cur_alias p todo st in
    (st' = {| tmp_aliases := tmp_aliases st; cur_line := cur_line st;
              keep_expanding := false; applied := applied st |}
     /\ forall a, In a todo -> alias_matches p (cur_line st) a = false)
    \/ (exists a m,
          In a todo
          /\ command_pattern_search p (cur_line st) = Some m
          /\ group1 m = a
          /\ a <> EmptyString
          /\ st' = {| tmp_aliases := list_remove a (tmp_aliases st);
                      cur_line := dict_get (aliases p) a
                                  ++ group2 m ++ after_group2 m;
                      keep_expanding :=
                        match list_remove a (tmp_aliases st) with
                        | [] => false
                        | _ => true
                        end;
                      applied := (applied st ++ [a])%list |}).
Proof.
  induction todo as [|a todo IH]; intros st Hne; [congruence|].
  cbn [for_cur_alias]. cbn [cur_line tmp_aliases applied].
  set (st1 := {| tmp_aliases := tmp_aliases st; cur_line := cur_line st;
                 keep_expanding := false; applied := applied st |}).
  assert (Hrest : alias_matches p (cur_line st) a = false ->
    let st' := for_cur_alias p todo st1 in
    (st' = st1
     /\ forall a0, In a0 (a :: todo) ->
                   alias_matches p (cur_line st) a0 = false)
    \/ (exists a0 m,
          In a0 (a :: todo)
          /\ command_pattern_search p (cur_line st) = Some m
          /\ group1 m = a0
          /\ a0 <> EmptyString
          /\ st' = {| tmp_aliases := list_remove a0 (tmp_aliases st);
                      cur_line := dict_get (aliases p) a0
                                  ++ group2 m ++ after_group2 m;
                      keep_expanding :=
                        match list_remove a0 (tmp_aliases st) with
                        | [] => false
                        | _ => true
                        end;
                      applied := (applied st ++ [a0])%list |})).
  { intros Ha. destruct todo as [|b todo].
    - left. split; [reflexivity|]. intros a0 [<-|[]]. exact Ha.
    - destruct (IH st1 ltac:(discriminate)) as [[H Hno]|(a0 & m & Hin & H)].
      + left. split; [exact H|]. intros a0 [<-|Hin]; [exact Ha|].
        now apply Hno.
      + right. exists a0, m. split; [now right | exact H]. }
  assert (Hm : alias_matches p (cur_line st) a
               = match command_pattern_search p (cur_line st) with
                 | Some m => truthy (group1 m) && (group1 m =? a)%string
                 | None => false
                 end) by reflexivity.
  destruct (command_pattern_search p (cur_line st)) as [m|] eqn:Es;
    [|now apply Hrest].
  destruct (truthy (group1 m) && (group1 m =? a)%string) eqn:Ec;
    [|now apply Hrest].
  clear Hrest Hm. right. exists a, m. apply andb_prop in Ec. destruct Ec as [Et Ee].
  apply String.eqb_eq in Ee. apply truthy_true in Et.
  repeat split; [now left | assumption | congruence].
Qed.

(** Rounds in which no alias matches leave the line as it is. *)
Lemma while_keep_expanding_no_match (p : StatementParser) (fuel : nat) :
  forall st,
    (forall a, In a (tmp_aliases st) ->
               alias_matches p (cur_line st) a = false) ->
    cur_line (while_keep_expanding fuel p st) = cur_line st.
Proof.
  induction fuel as [|fuel IH]; intros st H; [reflexivity|].
  cbn [while_keep_expanding]. destruct (keep_expanding st); [|reflexivity].
  destruct (tmp_aliases st) as [|a l] eqn:E; [now apply IH; rewrite E|].
  destruct (for_cur_alias_result p (a :: l) st ltac:(discriminate))
    as [[-> _]|(a0 & m & Hin & Hs & Hg & Hne & _)].
  - rewrite IH; [reflexivity|]. cbn [tmp_aliases cur_line].
    now rewrite E.
  - specialize (H a0 Hin). unfold alias_matches in H.
    rewrite Hs, Hg, String.eqb_refl in H.
    apply truthy_true in Hne. now rewrite Hne in H.
Qed.

Lemma expand_shortcuts_no_match (l : list (string * string))
    (line : string) :
  (forall s e, In (s, e) l -> startswith line s = false) ->
  expand_shortcuts l line = line.
Proof.
  induction l as [|[s e] l IH]; intros H; [reflexivity|].
  cbn [expand_shortcuts]. rewrite (H s e) by now left.
  apply IH. intros s' e' Hin. apply (H s' e'). now right.
Qed.

(** X15: [_expand] leaves a line as it is when its command word is no
    alias and no shortcut starts it. *)
Theorem X15_expand_nothing_applies (p : StatementParser) (line : string) :
  (forall a, In a (alias_keys p) -> alias_matches p line a = false) ->
  (forall s e, In (s, e) (shortcuts p) -> startswith line s = false) ->
  _expand p line = line.
Proof.
  intros Ha Hs. unfold _expand, expand_aliases.
  rewrite while_keep_expanding_no_match by exact Ha.
  now apply expand_shortcuts_no_match.
Qed.

(** X15 at the line [ls -l], with the alias [ll] and the shortcuts [?]
    and [!]. *)
Lemma X15_expand_nothing_applies_witness :
  _expand parser_shortcuts "ls -l" = "ls -l".
Proof.
  apply (X15_expand_nothing_applies parser_shortcuts "ls -l").
  - intros a [<-|[]]. reflexivity.
  - intros s e [[= <- <-]|[[= <- <-]|[]]]; reflexivity.
Defined.

(** When the loop is left, no alias that is still in [tmp_aliases] is the
    command word of the line. *)
Lemma while_keep_expanding_complete (p : StatementParser) (fuel : nat) :
  forall st,
    (keep_expanding st = true ->
     tmp_aliases st <> [] /\ List.length (tmp_aliases st) <= fuel) ->
    (keep_expanding st = false ->
     forall a, In a (tmp_aliases st) ->
               alias_matches p (cur_line st) a = false) ->
    let st' := while_keep_expanding fuel p st in
    forall a, In a (tmp_aliases st') ->
              alias_matches p (cur_line st') a = false.
Proof.
  induction fuel as [|fuel IH]; intros st Ht Hf; cbn [while_keep_expanding].
  - destruct (keep_expanding st) eqn:K; [|now apply Hf].
    destruct (Ht eq_refl) as [Hne Hlen].
    destruct (tmp_aliases st); [congruence | cbn in Hlen; lia].
  - destruct (keep_expanding st) eqn:K; [|now apply Hf].
    destruct (Ht eq_refl) as [Hne Hlen].
    destruct (for_cur_alias_result p (tmp_aliases st) st Hne)
      as [[E Hno]|(a0 & m & Hin & Hs & Hg & Hne0 & E)];
      cbv zeta; rewrite E; apply IH; cbn; try discriminate.
    + intros _. exact Hno.
    + intros K1. split.
      * destruct (list_remove a0 (tmp_aliases st)); [discriminate K1|].
        discriminate.
      * pose proof (list_remove_length a0 _ Hin). lia.
    + intros K1.
      destruct (list_remove a0 (tmp_aliases st)); [intros a []|].
      discriminate K1.
Qed.

(** X16: when the alias loop of [_expand] is over, the command word of
    the line is not an alias that was left unused: if it is the name of
    an alias, that alias has been expanded already. *)
Theorem X16_expansion_is_complete (p : StatementParser) (line a : string) :
  In a (alias_keys p) ->
  alias_matches p (cur_line (expand_aliases p line)) a = true ->
  In a (applied (expand_aliases p line)).
Proof.
  intros Hin Hm. unfold expand_aliases in *.
  assert (Hinit : keep_expanding (expand_init p line) = true ->
                  tmp_aliases (expand_init p line) <> []
                  /\ List.length (tmp_aliases (expand_init p line))
                     <= List.length (alias_keys p)).
  { cbn. destruct (alias_keys p); [discriminate|]. split; [discriminate|lia]. }
  destruct (while_keep_expanding_exits p _ _ Hinit) as (_ & _ & Hperm).
  pose proof (while_keep_expanding_complete p _ _ Hinit) as Hc.
  cbv zeta in Hc. cbn [expand_init applied tmp_aliases app] in Hperm.
  assert (Hc' : forall a0,
            In a0 (tmp_aliases
                     (while_keep_expanding (List.length (alias_keys p)) p
                        (expand_init p line))) ->
            alias_matches p
              (cur_line (while_keep_expanding (List.length (alias_keys p)) p
                           (expand_init p line))) a0 = false).
  { apply Hc. cbn. destruct (alias_keys p); [intros _ a0 [] | discriminate]. }
  apply (Permutation_in a (Permutation_sym Hperm)) in Hin.
  apply in_app_or in Hin. destruct Hin as [H|H]; [exact H|].
  rewrite (Hc' a H) in Hm. discriminate Hm.
Qed.

(** X16 at the line [a] with the cycle [a -> b], [b -> a]. *)
Lemma X16_expansion_is_complete_witness :
  In "a" (applied (expand_aliases parser_cycle "a")).
Proof.
  apply (X16_expansion_is_complete parser_cycle "a" "a").
  - now left.
  - reflexivity.
Defined.

Lemma list_remove_other (a b : string) (l : list string) :
  In b (list_remove a l) -> NoDup l -> b <> a.
Proof.
  intros Hb Hnd ->. now apply (proj2 (list_remove_nodup a l Hnd)).
Qed.

(** X17: an alias whose value does not lead to another alias is replaced
    by its value, and the separator that followed the command word and
    the rest of the line are kept as they are. *)
Theorem X17_alias_replaces_command_word (p : StatementParser)
    (line : string) (m : Match) :
  NoDup (alias_keys p) ->
  command_pattern_search p line = Some m ->
  group1 m <> EmptyString ->
  In (group1 m) (alias_keys p) ->
  (forall a, In a (alias_keys p) -> a <> group1 m ->
             alias_matches p (dict_get (aliases p) (group1 m)
                                ++ group2 m ++ after_group2 m) a = false) ->
  cur_line (expand_aliases p line)
  = dict_get (aliases p) (group1 m) ++ group2 m ++ after_group2 m.
Proof.
  intros Hnd Hs Hne Hin Hother. unfold expand_aliases, expand_init.
  destruct (alias_keys p) as [|k keys] eqn:Ek; [destruct Hin|].
  cbn [List.length while_keep_expanding keep_expanding tmp_aliases].
  set (st0 := {| tmp_aliases := k :: keys; cur_line := line;
                 keep_expanding := true; applied := [] |}).
  destruct (for_cur_alias_result p (k :: keys) st0 ltac:(discriminate))
    as [[_ Hno]|(a0 & m0 & Hin0 & Hs0 & Hg0 & Hne0 & E)].
  - specialize (Hno (group1 m) Hin). unfold alias_matches in Hno.
    cbn [cur_line st0] in Hno. rewrite Hs, String.eqb_refl in Hno.
    apply truthy_true in Hne. now rewrite Hne in Hno.
  - cbn [cur_line st0] in Hs0. rewrite Hs in Hs0. injection Hs0 as <-.
    subst a0. cbv zeta in E. rewrite E.
    rewrite while_keep_expanding_no_match; [reflexivity|].
    cbn [tmp_aliases cur_line st0]. intros a Ha.
    apply Hother; [eapply list_remove_in, Ha|].
    eapply list_remove_other; eassumption.
Qed.

(** X17 at the line [ls /tmp] with the alias [ls -> ls -l], which names
    itself. *)
Lemma X17_alias_replaces_command_word_witness :
  cur_line (expand_aliases parser_self_alias "ls /tmp") = "ls -l /tmp".
Proof.
  apply (X17_alias_replaces_command_word parser_self_alias "ls /tmp"
           {| group1 := "ls"; group2 := " "; after_group2 := "/tmp" |}).
  - repeat constructor. intros [].
  - reflexivity.
  - discriminate.
  - now left.
  - intros a [<-|[]] H. now elim H.
Defined.

Lemma replace_first_prefix (old new s : string) :
  startswith s old = true ->
  replace_first old new s = new ++ drop (String.length old) s.
Proof. intros H. destruct s; cbn [replace_first]; now rewrite H. Qed.

Lemma get_drop (n : nat) (s : string) (c : ascii) :
  get n s = Some c -> drop n s = String c (drop (S n) s).
Proof.
  revert s. induction n as [|n IH]; intros [|a s]; cbn; try discriminate.
  - now intros [= ->].
  - intros H. now apply IH.
Qed.

Lemma append_assoc (s t u : string) : (s ++ t) ++ u = s ++ t ++ u.
Proof. induction s; cbn; [reflexivity | now f_equal]. Qed.

Lemma get_length (s : string) : get (String.length s) s = None.
Proof. induction s as [|c s IH]; [reflexivity | exact IH]. Qed.

(** [line[n] == ' '], read on the text from [n] on. *)
Lemma startswith_drop_space (n : nat) (s : string) :
  startswith (drop n s) " "
  = match get n s with
    | Some c => (c =? " ")%char
    | None => false
    end.
Proof.
  revert s. induction n as [|n IH]; intros [|c s]; try reflexivity.
  - unfold startswith. cbn [drop prefix get].
    destruct (ascii_dec " " c) as [<-|Hne].
    + now destruct s.
    + symmetry. apply Ascii.eqb_neq. congruence.
  - cbn [drop get]. apply IH.
Qed.

(** The loop over the shortcuts: nothing applies, or the first shortcut
    the line starts with is replaced by its expansion, with a space after
    it unless the text that follows starts with one. *)
Lemma expand_shortcuts_exact (l : list (string * string)) (line : string) :
  ((forall s e, In (s, e) l -> startswith line s = false)
   /\ expand_shortcuts l line = line)
  \/ (exists l1 s e l2,
        l = (l1 ++ (s, e) :: l2)%list
        /\ (forall s' e', In (s', e') l1 -> startswith line s' = false)
        /\ startswith line s = true
        /\ expand_shortcuts l line
           = e ++ (if startswith (drop (String.length s) line) " "
                   then EmptyString else " ")
               ++ drop (String.length s) line).
Proof.
  induction l as [|[s e] l IH].
  - left. split; [intros s e [] | reflexivity].
  - cbn [expand_shortcuts]. destruct (startswith line s) eqn:E.
    + right. exists [], s, e, l.
      split; [reflexivity|]. split; [intros s' e' []|].
      split; [exact E|].
      rewrite replace_first_prefix by exact E.
      rewrite startswith_drop_space.
      destruct (Nat.eqb_spec (String.length line) (String.length s))
        as [L|L].
      * rewrite <- L, get_length. cbn [orb]. now rewrite append_assoc.
      * cbn [orb].
        destruct (get (String.length s) line) as [c|]; cbn [negb].
        -- destruct (c =? " ")%char; cbn [negb];
             [reflexivity | now rewrite append_assoc].
        -- now rewrite append_assoc.
    + destruct IH as [[Hno Hl]|(l1 & s0 & e0 & l2 & -> & Hl1 & H)].
      * left. split; [|exact Hl].
        intros s' e' [[= <- <-]|Hin]; [exact E | now apply (Hno s' e')].
      * right. exists ((s, e) :: l1), s0, e0, l2.
        split; [reflexivity|]. split; [|exact H].
        intros s' e' [[= <- <-]|Hin]; [exact E | now apply (Hl1 s' e')].
Qed.

(** X18: when a shortcut applies, it is the first configured shortcut the
    line (after alias expansion) starts with, and [_expand] returns its
    expansion, then a space unless the text after the shortcut already
    starts with one, then the text after the shortcut as it is. *)
Theorem X18_shortcut_followed_by_space (p : StatementParser)
    (line : string) (s0 : string) :
  let aliased := cur_line (expand_aliases p line) in
  In s0 (map fst (shortcuts p)) ->
  startswith aliased s0 = true ->
  exists l1 s e l2,
    shortcuts p = (l1 ++ (s, e) :: l2)%list
    /\ (forall s' e', In (s', e') l1 -> startswith aliased s' = false)
    /\ startswith aliased s = true
    /\ _expand p line
       = e ++ (if startswith (drop (String.length s) aliased) " "
               then EmptyString else " ")
           ++ drop (String.length s) aliased.
Proof.
  cbv zeta. intros Hin Hs0. unfold _expand.
  destruct (expand_shortcuts_exact (shortcuts p)
              (cur_line (expand_aliases p line))) as [[Hno _]|H];
    [|exact H].
  apply in_map_iff in Hin. destruct Hin as ([s e] & Heq & Hin).
  cbn in Heq. subst s0.
  rewrite (Hno s e Hin) in Hs0. discriminate Hs0.
Qed.

(** X18 at the line [! ls], where a space follows the shortcut [!]
    already: the result is [shell ls]. *)
Lemma X18_shortcut_followed_by_space_witness :
  exists l1 s e l2,
    shortcuts parser_shortcuts = (l1 ++ (s, e) :: l2)%list
    /\ (forall s' e', In (s', e') l1 -> startswith "! ls" s' = false)
    /\ startswith "! ls" s = true
    /\ "shell ls"
       = e ++ (if startswith (drop (String.length s) "! ls") " "
               then EmptyString else " ")
           ++ drop (String.length s) "! ls".
Proof.
  apply (X18_shortcut_followed_by_space parser_shortcuts "! ls" "!").
  - right. now left.
  - reflexivity.
Defined.

(** ** [parse_command_only] *)

Lemma startswith_append (s x tail : string) :
  startswith s x = true -> startswith (s ++ tail) x = true.
Proof.
  unfold startswith. revert s.
  induction x as [|a x IH]; intros s H.
  - now destruct (s ++ tail).
  - destruct s as [|b s]; cbn in H; [discriminate|]. cbn.
    destruct (ascii_dec a b); [now apply IH | discriminate].
Qed.

Lemma forbidden_at_append (p : StatementParser) (suf tail : string) :
  forbidden_at p suf -> forbidden_at p (suf ++ tail).
Proof.
  intros [(x & Hx & H)|(c & s' & -> & H)].
  - left. exists x. split; [assumption | now apply startswith_append].
  - right. now exists c, (s' ++ tail).
Qed.

Lemma match_second_group_split (p : StatementParser) (s g2 rest : string) :
  match_second_group p s = Some (g2, rest) -> s = g2 ++ rest.
Proof.
  unfold match_second_group.
  destruct (match_literal (invalid_command_chars p) s) as [[x r]|] eqn:E.
  - intros [= <- <-]. clear - E.
    induction (invalid_command_chars p) as [|y l IH]; [discriminate|].
    cbn in E. destruct (startswith s y) eqn:Es; [|now apply IH].
    injection E as <- <-. now apply startswith_split.
  - destruct s as [|c s']; [now intros [= <- <-]|].
    destruct (is_space c); [now intros [= <- <-] | discriminate].
Qed.

Lemma match_groups_split (p : StatementParser) (s : string) (m : Match) :
  match_groups p s = Some m ->
  s = group1 m ++ group2 m ++ after_group2 m.
Proof.
  revert m. induction s as [|c s IH]; intros m; cbn [match_groups].
  - destruct (match_second_group p EmptyString) as [[g2 rest]|] eqn:E;
      [|discriminate].
    intros [= <-]. cbn. now apply match_second_group_split in E.
  - destruct (match_second_group p (String c s)) as [[g2 rest]|] eqn:E.
    + intros [= <-]. cbn. now apply match_second_group_split in E.
    + destruct (is_space c); [discriminate|].
      destruct (match_groups p s) as [m'|]; [|discriminate].
      intros [= <-]. cbn. f_equal. now apply IH.
Qed.

(** The first group is always a clean word. *)
Lemma match_groups_clean (p : StatementParser) (s : string) (m : Match) :
  match_groups p s = Some m -> clean_word p (group1 m).
Proof.
  unfold clean_word. revert m.
  induction s as [|c s IH]; intros m; cbn [match_groups].
  - destruct (match_second_group p EmptyString) as [[g2 rest]|];
      [|discriminate].
    intros [= <-] pre suf H Hsuf. cbn in H.
    destruct pre; [cbn in H; congruence | discriminate].
  - destruct (match_second_group p (String c s)) as [[g2 rest]|] eqn:E.
    + intros [= <-] pre suf H Hsuf. cbn in H.
      destruct pre; [cbn in H; congruence | discriminate].
    + apply match_second_group_none in E. destruct E as [_ E].
      destruct (is_space c); [discriminate|].
      destruct (match_groups p s) as [m'|] eqn:Em; [|discriminate].
      intros [= <-] pre suf H Hsuf. cbn [group1] in H.
      destruct pre as [|c' pre].
      * cbn in H. subst suf. intros F. apply E.
        apply match_groups_split in Em. rewrite Em.
        change (String c (group1 m' ++ group2 m' ++ after_group2 m'))
          with (String c (group1 m') ++ group2 m' ++ after_group2 m').
        now apply forbidden_at_append.
      * injection H as _ H. now apply (IH m' eq_refl pre suf).
Qed.

Lemma command_pattern_search_clean (p : StatementParser) (line : string)
    (m : Match) :
  command_pattern_search p line = Some m -> clean_word p (group1 m).
Proof.
  unfold command_pattern_search. revert m.
  induction line as [|c line IH]; intros m; cbn [match_spaces_groups].
  - apply match_groups_clean.
  - destruct (is_space c); [|apply match_groups_clean].
    destruct (match_spaces_groups p line) as [m'|].
    + intros [= <-]. now apply IH.
    + apply match_groups_clean.
Qed.

Lemma is_valid_command_clean (p : StatementParser) (word : string) :
  clean_word p word -> fst (is_valid_command p word) = true.
Proof.
  intros H. apply command_pattern_search_whole in H.
  destruct H as (m & Hm & Hg). unfold is_valid_command.
  rewrite Hm, Hg, String.eqb_refl. reflexivity.
Qed.

(** X19: the command [parse_command_only] returns is always a word
    [is_valid_command] accepts: it holds no white space, quote,
    redirection character or terminator. *)
Theorem X19_command_only_is_valid (p : StatementParser) (line : string) :
  is_valid_command p (command (parse_command_only p line))
  = (true, EmptyString)
  /\ clean_word p (command (parse_command_only p line)).
Proof.
  assert (H : clean_word p (command (parse_command_only p line))).
  { unfold parse_command_only.
    destruct (command_pattern_search p (_expand p line)) as [m|] eqn:E.
    - apply command_pattern_search_clean in E.
      destruct (_ || _); exact E.
    - cbn. intros pre suf Hp Hsuf.
      destruct pre; [cbn in Hp; congruence | discriminate]. }
  split; [|exact H].
  pose proof (is_valid_command_clean p _ H) as Hv.
  unfold is_valid_command in *.
  destruct (command_pattern_search p _) as [m|]; [|discriminate Hv].
  destruct (_ =? _)%string; [reflexivity | discriminate Hv].
Qed.

Lemma rstrip_idempotent (s : string) : rstrip (rstrip s) = rstrip s.
Proof.
  induction s as [|c s IH]; [reflexivity|]. cbn [rstrip].
  destruct (rstrip s) as [|d r] eqn:E.
  - destruct (is_space c) eqn:Ec; [reflexivity|].
    cbn. now rewrite Ec.
  - cbn [rstrip]. cbn [rstrip] in IH. now rewrite IH.
Qed.

Lemma rstrip_last (s : string) (c : ascii) :
  last_char (rstrip s) = str1 c -> is_space c = false.
Proof.
  induction s as [|a s IH]; [discriminate|]. cbn [rstrip].
  destruct (rstrip s) as [|d r] eqn:E.
  - destruct (is_space a) eqn:Ea; [discriminate|].
    cbn. now intros [= <-].
  - cbn [last_char]. exact IH.
Qed.

(** X20: the arguments [parse_command_only] returns never end with white
    space, and they are empty when no command was found. *)
Theorem X20_command_only_args (p : StatementParser) (line : string) :
  rstrip (args (parse_command_only p line)) = args (parse_command_only p line)
  /\ (forall c, last_char (args (parse_command_only p line)) = str1 c ->
                is_space c = false)
  /\ (command (parse_command_only p line) = EmptyString ->
      args (parse_command_only p line) = EmptyString).
Proof.
  unfold parse_command_only.
  destruct (command_pattern_search p (_expand p line)) as [m|];
    [|cbn; repeat split; discriminate].
  destruct (negb (truthy (group1 m))
            || negb (truthy (rstrip (after_group2 m)))) eqn:E; cbn.
  - repeat split. discriminate.
  - repeat split.
    + apply rstrip_idempotent.
    + apply rstrip_last.
    + intros H. rewrite H in E. discriminate E.
Qed.

(** ** The comment stripper *)

Lemma re_sub_comments_length (fuel : nat) :
  forall line,
    String.length (re_sub_comments fuel line) <= String.length line.
Proof.
  induction fuel as [|fuel IH]; intros line; [reflexivity|].
  cbn [re_sub_comments].
  destruct (comment_pattern_match line) as [[m r]|] eqn:E.
  - apply comment_pattern_match_split in E. destruct E as [-> _].
    rewrite !string_length_append. specialize (IH r).
    unfold _comment_replacer. destruct (startswith m "/"); cbn; lia.
  - destruct line as [|c line]; [reflexivity|]. cbn. specialize (IH line). lia.
Qed.

(** X21: stripping the comments never makes a line longer, and it keeps
    every property that holds of each character of the line: no
    character is added. *)
Theorem X21_strip_comments_only_deletes (line : string) :
  String.length (strip_comments line) <= String.length line
  /\ forall f, all_chars f line = true ->
               all_chars f (strip_comments line) = true.
Proof.
  split; [apply re_sub_comments_length|].
  intros f. apply re_sub_comments_all_chars.
Qed.

(** ** What [parse_command_only] keeps of the line *)





(** The statement [parse_command_only] builds from the match. *)
Lemma parse_command_only_result (p : StatementParser) (line : string)
    (m : Match) :
  command_pattern_search p (_expand p line) = Some m ->
  parse_command_only p line
  = Statement_new
      (if truthy (group1 m) then rstrip (after_group2 m) else EmptyString)
      line (group1 m) []
      (if str_in (group1 m) (multiline_commands p)
       then group1 m else EmptyString)
      EmptyString EmptyString [] EmptyString EmptyString.
Proof.
  intros H. unfold parse_command_only. rewrite H.
  destruct (truthy (group1 m)) eqn:Eg; cbn [negb orb].
  - destruct (truthy (rstrip (after_group2 m))) eqn:Ea; cbn [negb].
    + reflexivity.
    + apply truthy_false in Ea. now rewrite Ea.
  - reflexivity.
Qed.



(** ** The string value of a statement *)

(** C10 (amended): the string value of a statement built by [parse] or by
    [parse_command_only] is its [args] field, not the raw line.  For
    [parse], [args] is the argument list joined by spaces, and the
    command followed by the argument list is the head of the tokens of
    the line, so the command, the terminator, the suffix and the pipe and
    redirection clauses [parse] finds are not in it: on [cmd a b ; s > o]
    the string value is [a b].  For [parse_command_only], [args] is the
    text after the command word and its separator without its trailing
    white space, or empty when there is no command word: what would be a
    terminator, a suffix, a redirection or a pipe stays in it. *)
Theorem C10_string_value_is_args (home : string -> string)
    (p : StatementParser) (line : string) :
  (forall st, parse home p line = OK st ->
     str_value st = args st
     /\ args st = join " " (arg_list st)
     /\ raw st = line
     /\ exists tokens,
          tokenize p line = OK tokens
          /\ (command st <> EmptyString ->
              exists rest,
                tokens = (command st :: arg_list st ++ rest)%list))
  /\ (exists m,
        command_pattern_search p (_expand p line) = Some m
        /\ str_value (parse_command_only p line)
           = args (parse_command_only p line)
        /\ args (parse_command_only p line)
           = (if truthy (group1 m) then rstrip (after_group2 m)
              else EmptyString)
        /\ command (parse_command_only p line) = group1 m
        /\ raw (parse_command_only p line) = line)
  /\ exists st,
       parse home default_parser "cmd a b ; s > o" = OK st
       /\ str_value st = "a b"
       /\ str_value st <> raw st.
Proof.
  split; [|split].
  - intros st H. unfold parse in H.
    destruct (tokenize p line) as [tokens|] eqn:Htok; [|discriminate].
    injection H as <-.
    destruct (assemble_str_value home p line tokens) as (H1 & H2 & H3).
    repeat split; try assumption.
    exists tokens. split; [reflexivity|].
    apply assemble_leading_tokens.
  - destruct (command_pattern_search_total p (_expand p line)) as [m Hm].
    exists m. split; [exact Hm|].
    rewrite (parse_command_only_result p line m Hm). repeat split.
  - eexists. split; [reflexivity|]. split; [reflexivity | discriminate].
Qed.

(** The first part of C10 at the line [say hello | wc], which [parse]
    accepts. *)
Lemma C10_string_value_is_args_witness :
  str_value (assemble home_of_user default_parser "say hello | wc"
                      ["say"; "hello"; "|"; "wc"])
  = "hello"
  /\ "hello" = join " " ["hello"]
  /\ raw (assemble home_of_user default_parser "say hello | wc"
                   ["say"; "hello"; "|"; "wc"])
     = "say hello | wc"
  /\ exists tokens,
       tokenize default_parser "say hello | wc" = OK tokens
       /\ ("say" <> EmptyString ->
           exists rest, tokens = ("say" :: ["hello"] ++ rest)%list).
Proof.
  apply (proj1 (C10_string_value_is_args home_of_user default_parser
                  "say hello | wc")).
  reflexivity.
Defined.

(** C10, as it is stated, fails for [parse_command_only]: on
    [cmd a ; b > c | d] its string value holds the terminator, the suffix,
    the redirection and the pipe, which [parse] takes out. *)
Lemma C10_counterexample :
  str_value (parse_command_only default_parser "cmd a ; b > c | d")
  = "a ; b > c | d"
  /\ exists st,
       parse home_of_user default_parser "cmd a ; b > c | d" = OK st
       /\ str_value st = "a"
       /\ terminator st = ";"
       /\ suffix st = "b"
       /\ output st = ">"
       /\ output_to st = "c"
       /\ pipe_to st = ["d"].
Proof.
  split; [reflexivity|]. eexists. split; [reflexivity|]. repeat split.
Qed.
